(** * Word Hunt solver: prefix dictionary and grid search

    A shallow embedding of [src/wordhunt/trie.py], [src/wordhunt/solver.py]
    and the pure parts of [src/solve.py] (the word list, the grid parser, the
    score and the ranking of the found words), and the properties of these
    that the specification states or the code shows.

    Conventions of the model:
    - a Python [str] is a [string]; its characters are the code points
      below 256 (the 8-bit [ascii] of the standard library);
    - a Python [int] is a [Z];
    - a [dict] is a [gmap], a [set] a [gset], a [list] a [list];
    - an [IndexError] of a list subscript is the outcome [IndexError], and
      the recursion limit of the interpreter is a parameter of the search,
      whose outcome beyond it is [RecursionError];
    - the mutable objects shared by the calls of the nested [dfs]
      ([visited], [out], [path], [paths]) are a state passed from call to
      call. *)

From Stdlib Require Import ZArith Ascii.
From stdpp Require Import base numbers option list strings gmap fin_maps sorting.

Set Warnings "-register-all".

Local Open Scope Z_scope.

(** ** Strings *)

(** [u] is a prefix of [w]: Python's [w.startswith(u)]. *)
Definition prefix_of (u w : string) : Prop := ∃ v, w = u +:+ v.

(** [str.lower] on the code points below 256: the letters A-Z and the
    capital letters of Latin-1 (192-222, the multiplication sign 215 apart)
    move up by 32, every other character stays. *)
Definition lower_char (a : ascii) : ascii :=
  let n := N_of_ascii a in
  if ((65 <=? n) && (n <=? 90) ||
      (192 <=? n) && (n <=? 222) && negb (n =? 215))%N
  then ascii_of_N (n + 32) else a.

Fixpoint lower (s : string) : string :=
  match s with
  | EmptyString => EmptyString
  | String a rest => String (lower_char a) (lower rest)
  end.

(** [str.isspace] of one character, on the code points below 256. *)
Definition is_space (a : ascii) : bool :=
  let n := N_of_ascii a in
  ((9 <=? n) && (n <=? 13) || (28 <=? n) && (n <=? 32) ||
   (n =? 133) || (n =? 160))%N.

Fixpoint lstrip (s : string) : string :=
  match s with
  | EmptyString => EmptyString
  | String a rest => if is_space a then lstrip rest else s
  end.

Definition rstrip (s : string) : string := String.rev (lstrip (String.rev s)).

(** [str.strip()]: the white space at both ends removed. *)
Definition strip (s : string) : string := rstrip (lstrip s).

(** ** The prefix dictionary ([wordhunt/trie.py]) *)

(** [TrieNode]: the children by character, and the word flag. *)
Inductive TrieNode : Type :=
  mkTrieNode { children : gmap ascii TrieNode; is_word : bool }.

(** [TrieNode()]: no child, [is_word = False]. *)
Definition new_node : TrieNode := mkTrieNode ∅ false.

(** [Trie]: the object that owns the root node. *)
Record Trie : Type := mkTrie { root : TrieNode }.

(** [Trie.__init__] *)
Definition new_trie : Trie := mkTrie new_node.

(** The loop of [Trie.insert], from the node the walk has reached:
    [node = node.children.setdefault(ch, TrieNode())] for each character,
    then [node.is_word = True].  The node is updated in place in Python; the
    model returns the updated node. *)
Fixpoint insert_from (node : TrieNode) (word : string) : TrieNode :=
  match word with
  | EmptyString => mkTrieNode (children node) true
  | String ch rest =>
      let child := default new_node (children node !! ch) in
      mkTrieNode (<[ch := insert_from child rest]> (children node)) (is_word node)
  end.

Definition insert (t : Trie) (word : string) : Trie :=
  mkTrie (insert_from (root t) word).

(** The descent shared by the two queries: [node = node.children.get(ch)]
    for each character; [None] as soon as a child is missing. *)
Fixpoint walk (node : TrieNode) (s : string) : option TrieNode :=
  match s with
  | EmptyString => Some node
  | String ch rest =>
      match children node !! ch with
      | None => None
      | Some child => walk child rest
      end
  end.

(** The loop of [Trie.has_prefix]: [False] at a missing child, [True] after
    the last character. *)
Fixpoint has_prefix_from (node : TrieNode) (prefix : string) : bool :=
  match prefix with
  | EmptyString => true
  | String ch rest =>
      match children node !! ch with
      | None => false
      | Some child => has_prefix_from child rest
      end
  end.

Definition has_prefix (t : Trie) (prefix : string) : bool :=
  has_prefix_from (root t) prefix.

(** The loop of [Trie.has_word]: [False] at a missing child, the flag of the
    node reached after the last character. *)
Fixpoint has_word_from (node : TrieNode) (word : string) : bool :=
  match word with
  | EmptyString => is_word node
  | String ch rest =>
      match children node !! ch with
      | None => false
      | Some child => has_word_from child rest
      end
  end.

Definition has_word (t : Trie) (word : string) : bool :=
  has_word_from (root t) word.

(** The trie a caller builds: the words inserted one after the other into a
    new trie. *)
Definition trie_of (words : list string) : Trie :=
  foldl insert new_trie words.

(** ** Outcomes of a call *)

(** What a call of the model yields: a value, the [IndexError] of a list
    subscript out of range, or the [RecursionError] of a call nested deeper
    than the recursion limit of the interpreter allows.  Nothing in the
    repository catches either exception, so a raised exception is the outcome
    of the whole call. *)
Inductive outcome (A : Type) : Type :=
  | Ok (a : A)
  | IndexError
  | RecursionError.
Arguments Ok {A} a.
Arguments IndexError {A}.
Arguments RecursionError {A}.

#[global] Instance outcome_ret : MRet outcome := @Ok.
#[global] Instance outcome_bind : MBind outcome := λ A B f m,
  match m with
  | Ok a => f a
  | IndexError => IndexError
  | RecursionError => RecursionError
  end.
#[global] Instance outcome_fmap : FMap outcome := λ A B f m,
  match m with
  | Ok a => Ok (f a)
  | IndexError => IndexError
  | RecursionError => RecursionError
  end.

(** [for x in xs: body], the state of the loop passed from one turn to the
    next; an exception ends the loop. *)
Fixpoint for_each {A S : Type} (xs : list A) (body : A → S → outcome S)
    (s : S) : outcome S :=
  match xs with
  | [] => Ok s
  | x :: rest => s' ← body x s; for_each rest body s'
  end.

(** ** Python lists *)

(** The position a subscript [i] names in a list of length [n]: a negative
    subscript counts from the end. *)
Definition subscript (n : nat) (i : Z) : option nat :=
  let j := if i <? 0 then i + Z.of_nat n else i in
  if (0 <=? j) && (j <? Z.of_nat n) then Some (Z.to_nat j) else None.

(** [l[i]] *)
Definition getitem {A : Type} (l : list A) (i : Z) : outcome A :=
  match subscript (length l) i with
  | Some k => match l !! k with Some x => Ok x | None => IndexError end
  | None => IndexError
  end.

(** [l[i] = x] *)
Definition setitem {A : Type} (l : list A) (i : Z) (x : A) : outcome (list A) :=
  match subscript (length l) i with
  | Some k => Ok (<[k := x]> l)
  | None => IndexError
  end.

(** [l.pop()] as the solver uses it: the last element removed, its value
    dropped. *)
Definition pop {A : Type} (l : list A) : outcome (list A) :=
  match l with
  | [] => IndexError
  | _ => Ok (removelast l)
  end.

(** [range(n)] *)
Definition range (n : Z) : list Z := seqZ 0 n.

(** ** The grid search ([wordhunt/solver.py]) *)

Definition Coord : Type := Z * Z.

Record SolveConfig : Type := mkSolveConfig {
  min_len : Z;
  allow_diagonal : bool
}.

(** The defaults of the dataclass. *)
Definition default_config : SolveConfig := mkSolveConfig 3 true.

Definition deltas (allow_diagonal : bool) : list (Z * Z) :=
  [(-1, 0); (1, 0); (0, -1); (0, 1)] ++
  (if allow_diagonal then [(-1, -1); (-1, 1); (1, -1); (1, 1)] else []).

(** The test [0 <= nr < rows and 0 <= nc < cols]. *)
Definition in_grid (rows cols : Z) (rc : Coord) : bool :=
  (0 <=? rc.1) && (rc.1 <? rows) && (0 <=? rc.2) && (rc.2 <? cols).

(** [_neighbors]: the cells the generator yields, in its order. *)
Definition neighbors (r c rows cols : Z) (allow_diagonal : bool) : list Coord :=
  filter (λ rc, in_grid rows cols rc)
         (map (λ d : Z * Z, (r + d.1, c + d.2)) (deltas allow_diagonal)).

(** [m[r][c]] and [m[r][c] = x] on a list of rows.  The rows of [visited] are
    separate lists, so the update of one row leaves the others as they are. *)
Definition getcell {A : Type} (m : list (list A)) (r c : Z) : outcome A :=
  row ← getitem m r; getitem row c.

Definition setcell {A : Type} (m : list (list A)) (r c : Z) (x : A)
    : outcome (list (list A)) :=
  row ← getitem m r; row' ← setitem row c x; setitem m r row'.

(** [cell.lower().strip()] *)
Definition normalize (cell : string) : string := strip (lower cell).

(** The solver's [g]: every cell of the grid lower-cased and stripped. *)
Definition tokens (grid : list (list string)) : list (list string) :=
  map (map normalize) grid.

(** [len(grid)] and [len(grid[0])] as the solver reads them once the grid is
    known not to be empty. *)
Definition grid_rows (grid : list (list string)) : nat := length grid.
Definition grid_cols (grid : list (list string)) : nat := length (hd [] grid).

(** [[[False] * cols for _ in range(rows)]] *)
Definition fresh_visited (rows cols : nat) : list (list bool) :=
  replicate rows (replicate cols false).

Section Search.

Variable g : list (list string).
Variables rows cols : Z.
Variable trie : Trie.
Variable cfg : SolveConfig.

(** The test of line 48 (line 90 in path mode). *)
Definition accepts (word : string) : bool :=
  (min_len cfg <=? Z.of_nat (String.length word)) && has_word trie word.

(** The nested [dfs] of [solve_grid].  Its state is the pair of the two
    objects it mutates, [visited] and [out].

    [dfs] is plain recursion, one frame of the interpreter for each cell of
    the path being tried.  [fuel] is the number of nested calls of [dfs] the
    recursion limit leaves room for (each with room for the calls it makes
    itself): the call nested one deeper raises [RecursionError].  The limit is
    a state of the interpreter (1000 frames unless changed), not a value of
    the program, so it is a parameter here. *)
Fixpoint dfs (fuel : nat) (r c : Z) (current : string)
    (st : list (list bool) * gset string)
    : outcome (list (list bool) * gset string) :=
  match fuel with
  | O => RecursionError
  | S fuel =>
      let '(visited, out) := st in
      visited ← setcell visited r c true;
      token ← getcell g r c;
      let next_word := current +:+ token in
      if negb (has_prefix trie next_word) then
        visited ← setcell visited r c false;
        Ok (visited, out)
      else
        let out := if accepts next_word then {[next_word]} ∪ out else out in
        st ← for_each (neighbors r c rows cols (allow_diagonal cfg))
               (λ '(nr, nc) '(visited, out),
                  seen ← getcell visited nr nc;
                  if negb seen then dfs fuel nr nc next_word (visited, out)
                  else Ok (visited, out))
               (visited, out);
        let '(visited, out) := st in
        visited ← setcell visited r c false;
        Ok (visited, out)
  end.

(** The nested [dfs] of [solve_grid_with_paths]: the state has the [path]
    list and the [paths] dictionary as well. *)
Fixpoint dfs_paths (fuel : nat) (r c : Z) (current : string)
    (st : list (list bool) * list Coord * gmap string (list Coord))
    : outcome (list (list bool) * list Coord * gmap string (list Coord)) :=
  match fuel with
  | O => RecursionError
  | S fuel =>
      let '(visited, path, paths) := st in
      visited ← setcell visited r c true;
      token ← getcell g r c;
      let next_word := current +:+ token in
      let path := path ++ [(r, c)] in
      if negb (has_prefix trie next_word) then
        path ← pop path;
        visited ← setcell visited r c false;
        Ok (visited, path, paths)
      else
        let paths :=
          if accepts next_word then
            match paths !! next_word with
            | None => <[next_word := path]> paths
            | Some _ => paths
            end
          else paths in
        st ← for_each (neighbors r c rows cols (allow_diagonal cfg))
               (λ '(nr, nc) '(visited, path, paths),
                  seen ← getcell visited nr nc;
                  if negb seen
                  then dfs_paths fuel nr nc next_word (visited, path, paths)
                  else Ok (visited, path, paths))
               (visited, path, paths);
        let '(visited, path, paths) := st in
        path ← pop path;
        visited ← setcell visited r c false;
        Ok (visited, path, paths)
  end.

End Search.

(** [solve_grid], in an interpreter whose recursion limit leaves room for
    [fuel] nested calls of [dfs]. *)
Definition solve_grid_fuel (fuel : nat) (grid : list (list string))
    (trie : Trie) (cfg : SolveConfig) : outcome (gset string) :=
  match grid with
  | [] => Ok ∅
  | [] :: _ => Ok ∅
  | _ =>
      let rows := Z.of_nat (grid_rows grid) in
      let cols := Z.of_nat (grid_cols grid) in
      let visited := fresh_visited (grid_rows grid) (grid_cols grid) in
      let g := tokens grid in
      st ← for_each (range rows)
             (λ r, for_each (range cols)
                     (λ c, dfs g rows cols trie cfg fuel r c ""))
             (visited, ∅);
      Ok st.2
  end.

(** [solve_grid_with_paths], in an interpreter whose recursion limit leaves
    room for [fuel] nested calls of [dfs].  Every start cell gets a new, empty
    [path] list. *)
Definition solve_grid_with_paths_fuel (fuel : nat) (grid : list (list string))
    (trie : Trie) (cfg : SolveConfig) : outcome (gmap string (list Coord)) :=
  match grid with
  | [] => Ok ∅
  | [] :: _ => Ok ∅
  | _ =>
      let rows := Z.of_nat (grid_rows grid) in
      let cols := Z.of_nat (grid_cols grid) in
      let visited := fresh_visited (grid_rows grid) (grid_cols grid) in
      let g := tokens grid in
      st ← for_each (range rows)
             (λ r, for_each (range cols)
                     (λ c '(visited, paths),
                        st ← dfs_paths g rows cols trie cfg fuel r c ""
                               (visited, [], paths);
                        Ok (st.1.1, st.2)))
             (visited, ∅);
      Ok st.2
  end.

(** The depth of the recursion is at most the number of cells, so this much
    fuel is never used up (theorem [search_terminates]). *)
Definition enough_fuel (grid : list (list string)) : nat :=
  (grid_rows grid * grid_cols grid)%nat.

(** The two entry points where the recursion limit is not met: with room for
    [enough_fuel] nested calls.  A run of [solve_grid_fuel] that returns,
    whatever its fuel, returns what [solve_grid] returns (lemma
    [solve_grid_fuel_Ok]); under a smaller limit the grid may be too deep and
    the outcome is then [RecursionError]. *)
Definition solve_grid (grid : list (list string)) (trie : Trie)
    (cfg : SolveConfig) : outcome (gset string) :=
  solve_grid_fuel (enough_fuel grid) grid trie cfg.

Definition solve_grid_with_paths (grid : list (list string)) (trie : Trie)
    (cfg : SolveConfig) : outcome (gmap string (list Coord)) :=
  solve_grid_with_paths_fuel (enough_fuel grid) grid trie cfg.

(** ** The command-line program ([solve.py]) *)

(** [wordhunt_score] *)
Definition wordhunt_score (word : string) : Z :=
  let n := Z.of_nat (String.length word) in
  if n <? 3 then 0
  else if n <=? 4 then 1
  else if n =? 5 then 2
  else if n =? 6 then 3
  else if n =? 7 then 5
  else 11.

(** [str.isalpha] of one character, on the code points below 256: the
    letters A-Z and a-z, the two ordinal indicators (170, 186), the micro
    sign (181), and the letters of Latin-1 (192-255, the multiplication and
    division signs 215 and 247 apart). *)
Definition is_alpha_char (a : ascii) : bool :=
  let n := N_of_ascii a in
  ((65 <=? n) && (n <=? 90) || (97 <=? n) && (n <=? 122) ||
   (n =? 170) || (n =? 181) || (n =? 186) ||
   (192 <=? n) && (n <=? 214) || (216 <=? n) && (n <=? 246) ||
   (248 <=? n) && (n <=? 255))%N.

Fixpoint all_chars (p : ascii → bool) (s : string) : bool :=
  match s with
  | EmptyString => true
  | String a rest => p a && all_chars p rest
  end.

(** [str.isalpha]: at least one character, and every character a letter. *)
Definition isalpha (s : string) : bool :=
  match s with
  | EmptyString => false
  | _ => all_chars is_alpha_char s
  end.

(** [load_words].  The file is the list of the lines the iteration over it
    yields, in their order; the words kept are appended in that order. *)
Definition load_words (lines : list string) (min_len : Z) : list string :=
  filter (λ w, (min_len <=? Z.of_nat (String.length w)) && isalpha w)
         (map (λ line, lower (strip line)) lines).

(** What a call of [parse_grid] yields: a grid, or one of the exceptions
    its body can raise. *)
Inductive parsed (A : Type) : Type :=
  | Parsed (a : A)
  | ValueError
  | StopIteration.
Arguments Parsed {A} a.
Arguments ValueError {A}.
Arguments StopIteration {A}.

#[global] Instance parsed_bind : MBind parsed := λ A B f m,
  match m with
  | Parsed a => f a
  | ValueError => ValueError
  | StopIteration => StopIteration
  end.

(** [x in s] for a string [x] of one character. *)
Fixpoint contains (a : ascii) (s : string) : bool :=
  match s with
  | EmptyString => false
  | String b rest => if decide (a = b) then true else contains a rest
  end.

(** The line boundaries of [str.splitlines], on the code points below 256:
    10 to 13, 28 to 30 and 133; a carriage return followed by a line feed is
    one boundary. *)
Definition is_linebreak (a : ascii) : bool :=
  let n := N_of_ascii a in
  ((10 <=? n) && (n <=? 13) || (28 <=? n) && (n <=? 30) || (n =? 133))%N.

(** [str.splitlines], with the line read so far in [cur]: the boundaries are
    not part of the lines, and a boundary at the very end opens no line. *)
Fixpoint splitlines_from (cur : string) (s : string) : list string :=
  match s with
  | EmptyString => match cur with EmptyString => [] | _ => [cur] end
  | String a rest =>
      if is_linebreak a then
        cur :: splitlines_from ""
                 match rest with
                 | String b rest' =>
                     if decide (a = "013"%char ∧ b = "010"%char)
                     then rest' else rest
                 | EmptyString => rest
                 end
      else splitlines_from (cur +:+ String a "") rest
  end.

Definition splitlines (s : string) : list string := splitlines_from "" s.

(** [str.split()]: the pieces between runs of white space, none empty. *)
Fixpoint split_ws_from (cur : string) (s : string) : list string :=
  match s with
  | EmptyString => match cur with EmptyString => [] | _ => [cur] end
  | String a rest =>
      if is_space a then
        match cur with
        | EmptyString => split_ws_from "" rest
        | _ => cur :: split_ws_from "" rest
        end
      else split_ws_from (cur +:+ String a "") rest
  end.

Definition split_ws (s : string) : list string := split_ws_from "" s.

(** [str.split(sep)] for a separator of one character: the pieces between
    separators, the empty ones as well. *)
Fixpoint split_on_from (sep : ascii) (cur : string) (s : string)
    : list string :=
  match s with
  | EmptyString => [cur]
  | String a rest =>
      if decide (a = sep) then cur :: split_on_from sep "" rest
      else split_on_from sep (cur +:+ String a "") rest
  end.

Definition split_on (sep : ascii) (s : string) : list string :=
  split_on_from sep "" s.

(** [[ch for ch in s if ch.isalpha()]]: the letters of [s], each a string of
    one character. *)
Fixpoint letters (s : string) : list string :=
  match s with
  | EmptyString => []
  | String a rest =>
      if isalpha (String a "") then String a "" :: letters rest
      else letters rest
  end.

(** [[p for p in s.split() if p]] *)
Definition parts (s : string) : list string :=
  filter (λ p, p ≠ "") (split_ws s).

(** A loop that appends one row to [grid] for each element, and stops at the
    first exception. *)
Fixpoint each_row {A : Type} (f : A → parsed (list string)) (xs : list A)
    : parsed (list (list string)) :=
  match xs with
  | [] => Parsed []
  | x :: rest => row ← f x; grid ← each_row f rest; Parsed (row :: grid)
  end.

(** [[next(it) for _ in range(n)]]: the row and what is left of the
    iterator. *)
Fixpoint next_row (n : nat) (it : list string)
    : parsed (list string * list string) :=
  match n with
  | O => Parsed ([], it)
  | S n' =>
      match it with
      | [] => StopIteration
      | ch :: it' =>
          '(row, it'') ← next_row n' it'; Parsed (ch :: row, it'')
      end
  end.

(** [[[next(it) for _ in range(n)] for _ in range(k)]] *)
Fixpoint next_rows (k n : nat) (it : list string)
    : parsed (list (list string)) :=
  match k with
  | O => Parsed []
  | S k' =>
      '(row, it') ← next_row n it;
      grid ← next_rows k' n it';
      Parsed (row :: grid)
  end.

(** [parse_grid] *)
Definition parse_grid (grid_str : string) (size : Z)
    : parsed (list (list string)) :=
  let s := lower (strip grid_str) in
  if contains "010"%char s then
    let lines := map strip (filter (λ ln, strip ln ≠ "") (splitlines s)) in
    if negb (Z.of_nat (length lines) =? size) then ValueError
    else
      each_row
        (λ ln,
           let row := if contains " "%char ln then parts ln else letters ln in
           if negb (Z.of_nat (length row) =? size) then ValueError
           else Parsed row)
        lines
  else if contains "/"%char s then
    let rows := map strip (split_on "/"%char s) in
    grid ← each_row
             (λ row,
                if Z.of_nat (length (parts row)) =? size then Parsed (parts row)
                else if negb (Z.of_nat (length (letters row)) =? size)
                     then ValueError
                     else Parsed (letters row))
             rows;
    if negb (Z.of_nat (length grid) =? size) then ValueError else Parsed grid
  else
    let compact := letters s in
    if negb (Z.of_nat (length compact) =? size * size) then ValueError
    else next_rows (Z.to_nat size) (Z.to_nat size) compact.

(** A character that is its own lower case. *)
Definition lowered_char (a : ascii) : bool := bool_decide (lower_char a = a).

(** A token that the solver's [cell.lower().strip()] leaves as it is: not
    empty, without white space, in lower case. *)
Definition plain_token (tok : string) : Prop :=
  tok ≠ ""
  ∧ all_chars (λ a, negb (is_space a)) tok = true
  ∧ all_chars lowered_char tok = true.

(** The compact form of a grid: its tokens one after the other, row by
    row. *)
Definition compact_of (grid : list (list string)) : string :=
  foldr String.app "" (concat grid).

(** A token of one letter in lower case. *)
Definition lower_letter (tok : string) : Prop :=
  ∃ a, tok = String a "" ∧ is_alpha_char a = true ∧ lower_char a = a.

(** The key [main] sorts the found words by:
    [(-wordhunt_score(w), -len(w), w)]. *)
Definition rank_key (w : string) : Z * Z * string :=
  (- wordhunt_score w, - Z.of_nat (String.length w), w).

(** The order of Python on such tuples: by the first component, then the
    second, then the strings, character by character. *)
Definition key_le (k1 k2 : Z * Z * string) : Prop :=
  k1.1.1 < k2.1.1
  ∨ (k1.1.1 = k2.1.1
     ∧ (k1.1.2 < k2.1.2 ∨ (k1.1.2 = k2.1.2 ∧ String.le k1.2 k2.2))).

Definition rank_le (w1 w2 : string) : Prop :=
  key_le (rank_key w1) (rank_key w2).

#[global] Instance rank_le_dec : RelDecision rank_le.
Proof. intros w1 w2. unfold rank_le, key_le. apply _. Defined.

(** The words [main] prints, in their order, from the found words in the
    order the iteration over the set yields them: sorted by the key, then
    filtered by [--min-score] when it is positive, then cut to the first
    [--top] when it is positive.  The keys of different words differ, so the
    sorted list does not depend on the sorting algorithm. *)
Definition ranked (found : list string) (min_score top : Z) : list string :=
  let sorted_words := merge_sort rank_le found in
  let sorted_words :=
    if 0 <? min_score
    then filter (λ w, min_score ≤ wordhunt_score w) sorted_words
    else sorted_words in
  if 0 <? top then take (Z.to_nat top) sorted_words else sorted_words.

(** ** Cells and paths, as the specification speaks of them *)

(** The cell of a list of rows at a coordinate that is not negative, and the
    list of rows with that cell replaced. *)
Definition cell_at {A : Type} (m : list (list A)) (rc : Coord) : option A :=
  row ← m !! Z.to_nat rc.1; row !! Z.to_nat rc.2.

Definition put {A : Type} (m : list (list A)) (rc : Coord) (x : A)
    : list (list A) :=
  match m !! Z.to_nat rc.1 with
  | Some row => <[Z.to_nat rc.1 := <[Z.to_nat rc.2 := x]> row]> m
  | None => m
  end.

(** The start cells in the order of the two loops [for r in range(rows)],
    [for c in range(cols)]. *)
Definition start_cells (rows cols : Z) : list Coord :=
  r ← range rows; c ← range cols; [(r, c)].

(** The adjacency rule: one step along a row or a column, or, when diagonals
    are allowed, one step along both. *)
Definition adjacent (allow_diagonal : bool) (a b : Coord) : Prop :=
  let dr := Z.abs (b.1 - a.1) in
  let dc := Z.abs (b.2 - a.2) in
  dr + dc = 1 ∨ (allow_diagonal = true ∧ dr = 1 ∧ dc = 1).

(** Consecutive cells of a path are adjacent. *)
Fixpoint linked (allow_diagonal : bool) (p : list Coord) : Prop :=
  match p with
  | a :: rest =>
      match rest with
      | b :: _ => adjacent allow_diagonal a b ∧ linked allow_diagonal rest
      | [] => True
      end
  | [] => True
  end.

(** The tokens of the cells of a path, one after the other. *)
Fixpoint spell (g : list (list string)) (p : list Coord) : outcome string :=
  match p with
  | [] => Ok ""
  | (r, c) :: rest =>
      token ← getcell g r c; word ← spell g rest; Ok (token +:+ word)
  end.

(** A coordinate inside the bounds of the grid. *)
Definition inside (grid : list (list string)) (rc : Coord) : Prop :=
  in_grid (Z.of_nat (grid_rows grid)) (Z.of_nat (grid_cols grid)) rc = true.

(** [p] traces [w] on the grid: a path of at least one cell, no cell twice,
    consecutive cells adjacent, every cell inside the grid, whose tokens (as
    the solver reads them: lower-cased and stripped) spell [w]. *)
Record traces (grid : list (list string)) (allow_diagonal : bool)
    (p : list Coord) (w : string) : Prop := mkTraces {
  traces_nonempty : p ≠ [];
  traces_simple : NoDup p;
  traces_linked : linked allow_diagonal p;
  traces_inside : Forall (inside grid) p;
  traces_spell : spell (tokens grid) p = Ok w
}.

(** Every row as long as the first. *)
Definition rectangular (grid : list (list string)) : Prop :=
  Forall (λ row, length row = grid_cols grid) grid.

(** No row shorter than the first: all the cells the search reads exist. *)
Definition covered (grid : list (list string)) : Prop :=
  Forall (λ row, (grid_cols grid ≤ length row)%nat) grid.

(** Every token of the grid is one character, or at most one character. *)
Definition single_letters (grid : list (list string)) : Prop :=
  Forall (Forall (λ cell, String.length (normalize cell) = 1%nat)) grid.

Definition short_tokens (grid : list (list string)) : Prop :=
  Forall (Forall (λ cell, (String.length (normalize cell) ≤ 1)%nat)) grid.

(** ** The state of a search in progress *)

(** [visited] has an entry for every cell inside the bounds. *)
Definition whole (rows cols : Z) (vis : list (list bool)) : Prop :=
  ∀ rc, in_grid rows cols rc = true → is_Some (cell_at vis rc).

(** A cell that is not on the path being tried. *)
Definition free (vis : list (list bool)) (rc : Coord) : Prop :=
  cell_at vis rc = Some false.

#[global] Instance free_dec (vis : list (list bool)) (rc : Coord) :
  Decision (free vis rc) := decide (cell_at vis rc = Some false).

Definition free_cells (rows cols : Z) (vis : list (list bool)) : list Coord :=
  filter (free vis) (start_cells rows cols).

(** A path the search can still walk: simple, linked, inside the bounds, and
    through free cells only. *)
Definition walkable (rows cols : Z) (allow_diagonal : bool)
    (vis : list (list bool)) (q : list Coord) : Prop :=
  NoDup q ∧ linked allow_diagonal q
  ∧ Forall (λ rc, in_grid rows cols rc = true ∧ free vis rc) q.

(** What the calls of [dfs] from the cells [starts], entered with the word
    [cur] and the path [path], add to [paths]: nothing is lost, every new
    entry is an accepted word with a walkable path that spells it, and every
    accepted word of a walkable path has an entry. *)
Record explored (g : list (list string)) (rows cols : Z) (trie : Trie)
    (cfg : SolveConfig) (vis : list (list bool)) (starts : Coord → Prop)
    (cur : string) (path : list Coord)
    (paths paths' : gmap string (list Coord)) : Prop := mkExplored {
  explored_incl : paths ⊆ paths';
  explored_sound : ∀ w p, paths' !! w = Some p →
    paths !! w = Some p
    ∨ ∃ x q u, starts x ∧ p = path ++ x :: q
        ∧ walkable rows cols (allow_diagonal cfg) vis (x :: q)
        ∧ spell g (x :: q) = Ok u ∧ w = cur +:+ u
        ∧ accepts trie cfg w = true;
  explored_complete : ∀ x q u, starts x →
    walkable rows cols (allow_diagonal cfg) vis (x :: q) →
    spell g (x :: q) = Ok u → accepts trie cfg (cur +:+ u) = true →
    is_Some (paths' !! (cur +:+ u))
}.

(** What a call of [dfs] in path mode does with [fuel], from a free cell
    inside the bounds, when the fuel covers the free cells: it ends normally,
    with [visited] and [path] as they were, and [paths] is [explored] from
    that cell. *)
Definition dfs_paths_explores (g : list (list string)) (rows cols : Z)
    (trie : Trie) (cfg : SolveConfig) (fuel : nat) : Prop :=
  ∀ r c cur vis path paths,
    whole rows cols vis → in_grid rows cols (r, c) = true →
    free vis (r, c) → (length (free_cells rows cols vis) ≤ fuel)%nat →
    ∃ paths',
      dfs_paths g rows cols trie cfg fuel r c cur (vis, path, paths)
      = Ok (vis, path, paths')
      ∧ explored g rows cols trie cfg vis (λ x, x = (r, c)) cur path
          paths paths'.

(** A call or a loop in path mode that ended in an [IndexError] or ended
    normally with [visited] and [path] as they were; and the calls of [dfs]
    from a free cell settle so when the fuel covers the free cells. *)
Definition settled (vis : list (list bool)) (path : list Coord)
    (o : outcome (list (list bool) * list Coord * gmap string (list Coord)))
    : Prop :=
  o = IndexError ∨ ∃ paths', o = Ok (vis, path, paths').

Definition dfs_paths_settles (g : list (list string)) (rows cols : Z)
    (trie : Trie) (cfg : SolveConfig) (fuel : nat) : Prop :=
  ∀ r c cur vis path paths,
    whole rows cols vis → in_grid rows cols (r, c) = true →
    free vis (r, c) → (length (free_cells rows cols vis) ≤ fuel)%nat →
    settled vis path
      (dfs_paths g rows cols trie cfg fuel r c cur (vis, path, paths)).

(** ** The two searches side by side *)

(** The outcome of a call in path mode agrees with the outcome of the same
    call in set mode: the same exception, or the same [visited], the [path]
    list as it was before the call, and the keys of [paths] in [out]. *)
Definition agree (path : list Coord)
    (o1 : outcome (list (list bool) * list Coord * gmap string (list Coord)))
    (o2 : outcome (list (list bool) * gset string)) : Prop :=
  match o1, o2 with
  | Ok (vis1, path1, paths), Ok (vis2, out) =>
      vis1 = vis2 ∧ path1 = path ∧ dom paths = out
  | IndexError, IndexError => True
  | RecursionError, RecursionError => True
  | _, _ => False
  end.

(** The calls of the two [dfs] with the same [fuel] agree. *)
Definition dfs_agree (g : list (list string)) (rows cols : Z) (trie : Trie)
    (cfg : SolveConfig) (fuel : nat) : Prop :=
  ∀ r c cur vis path paths,
    agree path
      (dfs_paths g rows cols trie cfg fuel r c cur (vis, path, paths))
      (dfs g rows cols trie cfg fuel r c cur (vis, dom paths)).

(** ** Sample inputs *)

(** A two by two grid and a small dictionary. *)
Definition demo_grid : list (list string) := [["c"; "a"]; ["t"; "s"]].
Definition demo_words : list string := ["cat"; "cats"; "at"; "ca"].
Definition demo_config : SolveConfig := mkSolveConfig 2 true.
Definition demo_found : gset string :=
  list_to_set ["cats"; "cat"; "ca"; "at"].
Definition demo_paths : gmap string (list Coord) :=
  list_to_map [("cats", [(0, 0); (0, 1); (1, 0); (1, 1)]);
               ("cat", [(0, 0); (0, 1); (1, 0)]);
               ("ca", [(0, 0); (0, 1)]);
               ("at", [(0, 1); (1, 0)])].

(** * Properties *)

(** ** Strings *)

Module Str.

Lemma app_cons (a : ascii) (s1 s2 : string) :
  String a s1 +:+ s2 = String a (s1 +:+ s2).
Proof. reflexivity. Qed.

Lemma app_nil_r (s : string) : s +:+ "" = s.
Proof. induction s as [|a s IH]; [done|]. by rewrite app_cons, IH. Qed.

Lemma app_assoc (s1 s2 s3 : string) : (s1 +:+ s2) +:+ s3 = s1 +:+ s2 +:+ s3.
Proof.
  induction s1 as [|a s1 IH]; [done|]. by rewrite !app_cons, IH.
Qed.

Lemma length_app (s1 s2 : string) :
  String.length (s1 +:+ s2) = (String.length s1 + String.length s2)%nat.
Proof.
  induction s1 as [|a s1 IH]; [done|]. rewrite app_cons. simpl. by rewrite IH.
Qed.

Lemma prefix_of_nil (w : string) : prefix_of "" w.
Proof. by exists w. Qed.

Lemma prefix_of_app (u v : string) : prefix_of u (u +:+ v).
Proof. by exists v. Qed.

Lemma prefix_of_cons (a b : ascii) (u w : string) :
  prefix_of (String a u) (String b w) ↔ a = b ∧ prefix_of u w.
Proof.
  split.
  - intros [v Hv]. rewrite app_cons in Hv. injection Hv as -> ->.
    split; [done|]. by exists v.
  - intros [-> [v ->]]. exists v. by rewrite app_cons.
Qed.

Lemma prefix_of_nil_inv (u : string) : prefix_of u "" → u = "".
Proof. intros [v Hv]. by destruct u. Qed.

End Str.

(** ** The prefix dictionary *)

Section TrieFacts.

Set Warnings "-clear-no-such-hyp".

Implicit Types (node : TrieNode) (q w : string).

Lemma has_prefix_walk node q :
  has_prefix_from node q = true ↔ is_Some (walk node q).
Proof.
  revert node. induction q as [|a q IH]; intros node; simpl.
  - split; eauto.
  - destruct (children node !! a) as [child|]; [apply IH|].
    split; [done|]. by intros [? ?].
Qed.

Lemma has_word_walk node q :
  has_word_from node q = from_option is_word false (walk node q).
Proof.
  revert node. induction q as [|a q IH]; intros node; simpl; [done|].
  by destruct (children node !! a).
Qed.

Lemma has_word_new_node q : has_word_from new_node q = false.
Proof. by destruct q. Qed.

Lemma has_prefix_new_node q : has_prefix_from new_node q = true ↔ q = "".
Proof. destruct q; simpl; [done|]. rewrite lookup_empty. split; done. Qed.

(** A query of a child that [setdefault] would create answers as the query
    of the missing child does. *)
Lemma has_word_default node a q :
  has_word_from (default new_node (children node !! a)) q
  = has_word_from node (String a q).
Proof.
  simpl. destruct (children node !! a); [done|]. apply has_word_new_node.
Qed.

Lemma has_word_insert_from node w q :
  has_word_from (insert_from node w) q
  = if decide (q = w) then true else has_word_from node q.
Proof.
  revert node q. induction w as [|a w IH]; intros node q.
  - destruct q; [done|]. by destruct (decide _).
  - destruct q as [|b q]; [by destruct (decide _)|].
    cbn [insert_from has_word_from children].
    destruct (decide (a = b)) as [->|Hab].
    + rewrite lookup_insert_eq, IH, has_word_default. simpl.
      repeat case_decide; congruence.
    + rewrite lookup_insert_ne by done. case_decide; [congruence|done].
Qed.

Lemma has_prefix_insert_from node w q :
  has_prefix_from (insert_from node w) q = true
  ↔ has_prefix_from node q = true ∨ prefix_of q w.
Proof.
  revert node q. induction w as [|a w IH]; intros node q.
  - destruct q as [|b q]; simpl.
    + split; eauto.
    + split; [eauto|]. intros [?|H]; [done|].
      by apply Str.prefix_of_nil_inv in H.
  - destruct q as [|b q].
    + simpl. split; eauto.
    + cbn [insert_from has_prefix_from children].
      rewrite Str.prefix_of_cons.
      destruct (decide (a = b)) as [->|Hab].
      * rewrite lookup_insert_eq, IH.
        destruct (children node !! b) as [child|]; simpl; [naive_solver|].
        rewrite has_prefix_new_node. split; [|naive_solver].
        intros [->|?]; [|naive_solver]. right. split; [done|].
        apply Str.prefix_of_nil.
      * rewrite lookup_insert_ne by done. naive_solver.
Qed.

Lemma insert_from_idemp node w :
  insert_from (insert_from node w) w = insert_from node w.
Proof.
  revert node. induction w as [|a w IH]; intros node; [done|].
  cbn [insert_from children is_word].
  rewrite lookup_insert_eq. cbn [default from_option id].
  by rewrite IH, insert_insert_eq.
Qed.

Lemma insert_idemp (t : Trie) w : insert (insert t w) w = insert t w.
Proof. unfold insert. simpl. by rewrite insert_from_idemp. Qed.

Lemma insert_iter (t : Trie) w (n : nat) :
  Nat.iter (S n) (λ t', insert t' w) t = insert t w.
Proof.
  induction n as [|n IH]; [done|].
  change (Nat.iter (S (S n)) (λ t', insert t' w) t)
    with (insert (Nat.iter (S n) (λ t', insert t' w) t) w).
  by rewrite IH, insert_idemp.
Qed.

Lemma has_word_foldl (t : Trie) (ws : list string) q :
  has_word (foldl insert t ws) q = true ↔ has_word t q = true ∨ q ∈ ws.
Proof.
  revert t. induction ws as [|w ws IH]; intros t; simpl.
  - rewrite elem_of_nil. naive_solver.
  - rewrite IH, elem_of_cons. unfold has_word, insert. simpl.
    rewrite has_word_insert_from. case_decide; naive_solver.
Qed.

Lemma has_prefix_foldl (t : Trie) (ws : list string) q :
  has_prefix (foldl insert t ws) q = true
  ↔ has_prefix t q = true ∨ ∃ w, w ∈ ws ∧ prefix_of q w.
Proof.
  revert t. induction ws as [|w ws IH]; intros t; simpl.
  - split; [eauto|]. intros [?|(w & Hw & _)]; [done|].
    by apply elem_of_nil in Hw.
  - rewrite IH. unfold has_prefix, insert. simpl.
    rewrite has_prefix_insert_from. split.
    + intros [[?|?]|(w' & ? & ?)].
      * by left.
      * right. exists w. split; [left|done].
      * right. exists w'. split; [by right|done].
    + intros [?|(w' & Hw' & ?)]; [by left; left|].
      apply elem_of_cons in Hw' as [->|?]; [by left; right|].
      right. by exists w'.
Qed.

(** The pruning test is implied by the word test: whatever the trie, a
    prefix of a word it holds passes [has_prefix]. *)
Lemma has_word_has_prefix_from node u w :
  has_word_from node w = true → prefix_of u w → has_prefix_from node u = true.
Proof.
  revert node w. induction u as [|a u IH]; intros node w Hw Hp; [done|].
  destruct w as [|b w]; [by apply Str.prefix_of_nil_inv in Hp|].
  apply Str.prefix_of_cons in Hp as [-> Hp]. simpl in *.
  destruct (children node !! b); [eauto|done].
Qed.

Lemma has_word_has_prefix (t : Trie) u w :
  has_word t w = true → prefix_of u w → has_prefix t u = true.
Proof. apply has_word_has_prefix_from. Qed.

Lemma has_word_trie_of (ws : list string) q :
  has_word (trie_of ws) q = true ↔ q ∈ ws.
Proof.
  unfold trie_of. rewrite has_word_foldl. unfold has_word, new_trie. simpl.
  rewrite has_word_new_node. naive_solver.
Qed.

End TrieFacts.

(** C4, as stated, fails on the empty dictionary: [has_prefix] of the empty
    sequence is true on a trie no word was inserted into. *)
Lemma has_prefix_empty_trie :
  has_prefix (trie_of []) "" = true
  ∧ ¬ ∃ w, w ∈ ([] : list string) ∧ prefix_of "" w.
Proof.
  split; [reflexivity|]. intros (w & Hw & _). by apply elem_of_nil in Hw.
Qed.

(** C4, amended: on the trie built by inserting the words [ws], [has_prefix]
    is true exactly of the empty sequence and of the prefixes of the words of
    [ws]. *)
Theorem has_prefix_spec (ws : list string) (q : string) :
  has_prefix (trie_of ws) q = true ↔ q = "" ∨ ∃ w, w ∈ ws ∧ prefix_of q w.
Proof.
  unfold trie_of. rewrite has_prefix_foldl.
  unfold has_prefix, new_trie. simpl. by rewrite has_prefix_new_node.
Qed.

(** C5: on the trie built by inserting the words [ws], [has_word] is true
    exactly of the words of [ws]; so it is false of a sequence that is not
    one of them, a proper prefix of some of them or not, and false when the
    descent meets a missing child. *)
Theorem has_word_spec (ws : list string) (q : string) :
  (has_word (trie_of ws) q = true ↔ q ∈ ws)
  ∧ (q ∉ ws → has_word (trie_of ws) q = false)
  ∧ (walk (root (trie_of ws)) q = None → has_word (trie_of ws) q = false).
Proof.
  split; [apply has_word_trie_of|]. split.
  - intros Hq. apply not_true_is_false. by rewrite has_word_trie_of.
  - intros Hw. unfold has_word. by rewrite has_word_walk, Hw.
Qed.

(** C8: a word inserted [n > 1] times into any trie leaves a trie that
    answers every [has_prefix] and [has_word] query as the trie with the word
    inserted once. *)
Theorem insert_idempotent (t : Trie) (w : string) (n : nat) (q : string) :
  (1 < n)%nat →
  has_prefix (Nat.iter n (λ t', insert t' w) t) q = has_prefix (insert t w) q
  ∧ has_word (Nat.iter n (λ t', insert t' w) t) q = has_word (insert t w) q.
Proof.
  intros Hn. destruct n as [|n]; [lia|]. by rewrite insert_iter.
Qed.

Lemma insert_idempotent_witness :
  has_prefix (Nat.iter 3 (λ t', insert t' "cat") (trie_of ["ca"; "dog"])) "cat"
  = has_prefix (insert (trie_of ["ca"; "dog"]) "cat") "cat"
  ∧ has_word (Nat.iter 3 (λ t', insert t' "cat") (trie_of ["ca"; "dog"])) "ca"
  = has_word (insert (trie_of ["ca"; "dog"]) "cat") "ca".
Proof.
  split.
  - apply (insert_idempotent (trie_of ["ca"; "dog"]) "cat" 3 "cat"). lia.
  - apply (insert_idempotent (trie_of ["ca"; "dog"]) "cat" 3 "ca"). lia.
Defined.

(** ** Lists of rows under subscripts that are not negative *)

Section Subscripts.

Context {A : Type}.
Implicit Types (l : list A).

Lemma subscript_nonneg (n : nat) (i : Z) :
  0 ≤ i →
  subscript n i = if decide (i < Z.of_nat n) then Some (Z.to_nat i) else None.
Proof.
  intros Hi. unfold subscript.
  destruct (Z.ltb_spec i 0); [lia|].
  destruct (Z.leb_spec 0 i); [|lia]. simpl.
  destruct (Z.ltb_spec i (Z.of_nat n)); case_decide; done || lia.
Qed.

Lemma getitem_nonneg l (i : Z) :
  0 ≤ i →
  getitem l i = from_option Ok IndexError (l !! Z.to_nat i).
Proof.
  intros Hi. unfold getitem. rewrite subscript_nonneg by done.
  case_decide as Hlt.
  - by destruct (l !! Z.to_nat i).
  - rewrite lookup_ge_None_2; [done|lia].
Qed.

Lemma setitem_nonneg l (i : Z) (x : A) :
  0 ≤ i →
  setitem l i x
  = from_option (λ _, Ok (<[Z.to_nat i := x]> l)) IndexError (l !! Z.to_nat i).
Proof.
  intros Hi. unfold setitem. rewrite subscript_nonneg by done.
  case_decide as Hlt.
  - destruct (lookup_lt_is_Some_2 l (Z.to_nat i)) as [y ->]; [lia|done].
  - rewrite lookup_ge_None_2; [done|lia].
Qed.

End Subscripts.

Section Matrix.

Context {A : Type}.
Implicit Types (m : list (list A)) (rc : Coord).

Lemma getcell_nonneg m (r c : Z) :
  0 ≤ r → 0 ≤ c →
  getcell m r c = from_option Ok IndexError (cell_at m (r, c)).
Proof.
  intros Hr Hc. unfold getcell, cell_at. cbn -[getitem].
  rewrite getitem_nonneg by done.
  destruct (m !! Z.to_nat r) as [row|]; cbn -[getitem]; [|done].
  by rewrite getitem_nonneg.
Qed.

Lemma setcell_nonneg m (r c : Z) (x y : A) :
  0 ≤ r → 0 ≤ c → cell_at m (r, c) = Some y →
  setcell m r c x = Ok (put m (r, c) x).
Proof.
  intros Hr Hc. unfold setcell, cell_at, put. cbn -[getitem setitem].
  rewrite getitem_nonneg by done.
  destruct (m !! Z.to_nat r) as [row|] eqn:Hrow; cbn -[setitem]; [|done].
  intros Hy. rewrite setitem_nonneg by done. rewrite Hy. cbn -[setitem].
  rewrite setitem_nonneg by done. by rewrite Hrow.
Qed.

Lemma cell_at_put m rc rc' (x : A) :
  0 ≤ rc.1 → 0 ≤ rc.2 → 0 ≤ rc'.1 → 0 ≤ rc'.2 →
  is_Some (cell_at m rc) →
  cell_at (put m rc x) rc' = if decide (rc' = rc) then Some x else cell_at m rc'.
Proof.
  destruct rc as [r c], rc' as [r' c']. simpl. intros ? ? ? ? [y Hy].
  unfold cell_at, put in *. simpl in *.
  destruct (m !! Z.to_nat r) as [row|] eqn:Hrow; simpl in *; [|done].
  destruct (decide (r' = r)) as [->|Hr].
  - rewrite list_lookup_insert_eq by by eapply lookup_lt_Some. simpl.
    destruct (decide (c' = c)) as [->|Hc].
    + rewrite list_lookup_insert_eq by by eapply lookup_lt_Some.
      by rewrite decide_True.
    + rewrite list_lookup_insert_ne by lia. rewrite decide_False by congruence.
      by rewrite Hrow.
  - rewrite list_lookup_insert_ne by lia. by rewrite decide_False by congruence.
Qed.

Lemma put_put_id m rc (x y : A) :
  cell_at m rc = Some y → put (put m rc x) rc y = m.
Proof.
  destruct rc as [r c]. unfold cell_at, put. simpl.
  destruct (m !! Z.to_nat r) as [row|] eqn:Hrow; simpl; [|done]. intros Hy.
  rewrite list_lookup_insert_eq by by eapply lookup_lt_Some.
  rewrite list_insert_insert_eq, list_insert_insert_eq.
  rewrite (list_insert_id row) by done. by apply list_insert_id.
Qed.

End Matrix.

(** ** Loops *)

Section Loops.

Context {A S : Type}.
Implicit Types (body : A → S → outcome S) (xs : list A).

Lemma for_each_app xs ys body (s : S) :
  for_each (xs ++ ys) body s = s' ← for_each xs body s; for_each ys body s'.
Proof.
  revert s. induction xs as [|x xs IH]; intros s; [done|].
  simpl. destruct (body x s); simpl; [apply IH|done..].
Qed.

(** A loop whose every turn succeeds and keeps an invariant succeeds and
    keeps it; [Q] relates the states before and after, and is kept by
    composition with a turn. *)
Lemma for_each_inv (I : S → Prop) xs body (s : S) :
  I s →
  (∀ x s1, x ∈ xs → I s1 → ∃ s2, body x s1 = Ok s2 ∧ I s2) →
  ∃ s', for_each xs body s = Ok s' ∧ I s'.
Proof.
  revert s. induction xs as [|x xs IH]; intros s Hs Hbody; simpl; [eauto|].
  destruct (Hbody x s) as (s2 & -> & Hs2); [left|done|]. simpl.
  apply IH; [done|]. intros y s1 Hy. apply Hbody. by right.
Qed.

(** The turns of a loop that ends normally all ended normally. *)
Lemma for_each_Ok_turn xs body (s s' : S) (x : A) :
  for_each xs body s = Ok s' → x ∈ xs → ∃ s1 s2, body x s1 = Ok s2.
Proof.
  revert s. induction xs as [|y xs IH]; intros s Hrun Hx.
  - by apply elem_of_nil in Hx.
  - simpl in Hrun. destruct (body y s) as [s2| |] eqn:Hy; try done.
    apply elem_of_cons in Hx as [->|Hx]; eauto.
Qed.

Lemma for_each_ext xs body1 body2 (s : S) :
  (∀ x s1, x ∈ xs → body1 x s1 = body2 x s1) →
  for_each xs body1 s = for_each xs body2 s.
Proof.
  revert s. induction xs as [|x xs IH]; intros s Hext; [done|]. simpl.
  rewrite Hext by left. destruct (body2 x s); simpl; try done.
  apply IH. intros y s1 Hy. apply Hext. by right.
Qed.

(** Turns that end normally under [body1] and do the same under [body2]. *)
Lemma for_each_Ok_mono xs body1 body2 (s s' : S) :
  (∀ x s1 s2, body1 x s1 = Ok s2 → body2 x s1 = Ok s2) →
  for_each xs body1 s = Ok s' → for_each xs body2 s = Ok s'.
Proof.
  intros Hmono. revert s. induction xs as [|x xs IH]; intros s; [done|].
  simpl. destruct (body1 x s) as [s2| |] eqn:Hx; try done.
  rewrite (Hmono _ _ _ Hx). simpl. apply IH.
Qed.

End Loops.

(** The two nested loops over rows and columns are one loop over the start
    cells. *)
Lemma for_each_start_cells {S : Type} (rows cols : Z)
    (body : Z → Z → S → outcome S) (s : S) :
  for_each (range rows) (λ r, for_each (range cols) (λ c, body r c)) s
  = for_each (start_cells rows cols) (λ rc, body rc.1 rc.2) s.
Proof.
  unfold start_cells. generalize (range rows) as rs. intros rs. revert s.
  induction rs as [|r rs IH]; intros s; [done|].
  cbn [for_each mbind list_bind]. rewrite for_each_app.
  assert (∀ cs s0, for_each cs (λ c, body r c) s0
     = for_each (cs ≫= λ c, [(r, c)]) (λ rc, body rc.1 rc.2) s0) as ->.
  { induction cs as [|c cs IHc]; intros s0; [done|]. simpl.
    destruct (body r c s0); simpl; [apply IHc|done..]. }
  destruct (for_each _ _ s); simpl; [apply IH|done..].
Qed.

(** ** The geometry of the grid *)

Section Geometry.

Variables rows cols : Z.
Implicit Types (rc : Coord).

Lemma in_grid_spec rc :
  in_grid rows cols rc = true ↔ 0 ≤ rc.1 < rows ∧ 0 ≤ rc.2 < cols.
Proof. unfold in_grid. rewrite !andb_true_iff. lia. Qed.

Lemma elem_of_start_cells rc :
  rc ∈ start_cells rows cols ↔ in_grid rows cols rc = true.
Proof.
  rewrite in_grid_spec. unfold start_cells, range. destruct rc as [r c].
  simpl. rewrite list_elem_of_bind. split.
  - intros (r' & (c' & Hrc & Hc)%list_elem_of_bind & Hr).
    apply list_elem_of_singleton in Hrc. injection Hrc as -> ->.
    apply elem_of_seqZ in Hr, Hc. lia.
  - intros [Hr Hc]. exists r. split; [|apply elem_of_seqZ; lia].
    apply list_elem_of_bind. exists c. split; [by left|].
    apply elem_of_seqZ; lia.
Qed.

Lemma NoDup_start_cells : NoDup (start_cells rows cols).
Proof.
  unfold start_cells, range. apply NoDup_bind.
  - intros r1 r2 rc _ _ (c1 & H1 & _)%list_elem_of_bind
      (c2 & H2 & _)%list_elem_of_bind.
    apply list_elem_of_singleton in H1, H2. congruence.
  - intros r _. apply NoDup_bind.
    + intros c1 c2 rc _ _ H1 H2. apply list_elem_of_singleton in H1, H2.
      congruence.
    + intros. apply NoDup_singleton.
    + apply NoDup_seqZ.
  - apply NoDup_seqZ.
Qed.

Lemma length_start_cells :
  length (start_cells rows cols) = (Z.to_nat rows * Z.to_nat cols)%nat.
Proof.
  unfold start_cells, range.
  rewrite <- (length_seqZ 0 rows). generalize (seqZ 0 rows) as rs.
  induction rs as [|r rs IH]; [done|].
  csimpl. rewrite length_app. simpl. f_equal; [|exact IH].
  rewrite <- (length_seqZ 0 cols). generalize (seqZ 0 cols) as cs.
  induction cs as [|c cs IHc]; [done|]. csimpl. f_equal. exact IHc.
Qed.

Lemma elem_of_neighbors (r c : Z) (diag : bool) rc :
  rc ∈ neighbors r c rows cols diag
  ↔ adjacent diag (r, c) rc ∧ in_grid rows cols rc = true.
Proof.
  unfold neighbors. rewrite list_elem_of_filter, list_elem_of_fmap.
  rewrite Is_true_true. destruct rc as [r' c'].
  rewrite (and_comm (in_grid _ _ _ = true)).
  split; intros [H1 H2]; (split; [|done]); clear H2.
  - destruct H1 as ([dr dc] & Heq & Hd). injection Heq as -> ->.
    unfold adjacent, deltas in *. simpl.
    destruct diag; simpl in Hd;
      repeat (apply elem_of_cons in Hd as [Hd|Hd];
              [injection Hd as -> ->; lia|]);
      by apply elem_of_nil in Hd.
  - unfold adjacent in H1. simpl in H1. exists (r' - r, c' - c).
    simpl. split; [f_equal; lia|]. unfold deltas.
    assert (r' - r = -1 ∨ r' - r = 0 ∨ r' - r = 1) as Hr by lia.
    assert (c' - c = -1 ∨ c' - c = 0 ∨ c' - c = 1) as Hc by lia.
    destruct Hr as [Hr|[Hr|Hr]], Hc as [Hc|[Hc|Hc]]; rewrite Hr, Hc;
      destruct H1 as [H1|(Hd & H1 & H1')];
      try (exfalso; lia); try subst diag; simpl;
      repeat first [by left | right].
Qed.

End Geometry.

Lemma adjacent_mono (a b : Coord) : adjacent false a b → adjacent true a b.
Proof. unfold adjacent. intros [?|(? & _)]; [by left|done]. Qed.

Lemma linked_mono (p : list Coord) : linked false p → linked true p.
Proof.
  induction p as [|a [|b p] IH]; simpl; [done..|].
  intros [? ?]. split; [by apply adjacent_mono|by apply IH].
Qed.

Lemma traces_mono (grid : list (list string)) (p : list Coord) (w : string) :
  traces grid false p w → traces grid true p w.
Proof. intros []. split; auto using linked_mono. Qed.

(** ** The visited marker *)

Lemma length_filter_drop {A : Type} (P Q : A → Prop)
    `{!∀ x, Decision (P x), !∀ x, Decision (Q x)} (l : list A) (x : A) :
  x ∈ l → P x → ¬ Q x → (∀ y, y ∈ l → Q y → P y) →
  (length (filter Q l) < length (filter P l))%nat.
Proof.
  intros Hx HP HQ Himp.
  assert (∀ k : list A, (∀ y, y ∈ k → Q y → P y) →
            (length (filter Q k) ≤ length (filter P k))%nat) as Hle.
  { induction k as [|y k IH]; intros Hk; [done|].
    rewrite !filter_cons.
    assert (length (filter Q k) ≤ length (filter P k))%nat
      by (apply IH; intros; apply Hk; [by right|done]).
    destruct (decide (Q y)) as [Hy|Hy].
    - rewrite decide_True by (apply Hk; [left|done]). simpl. lia.
    - destruct (decide (P y)); simpl; lia. }
  induction l as [|y l IH]; [by apply elem_of_nil in Hx|].
  rewrite !filter_cons.
  assert (length (filter Q l) ≤ length (filter P l))%nat
    by (apply Hle; intros; apply Himp; [by right|done]).
  apply elem_of_cons in Hx as [<-|Hx].
  - rewrite decide_False, decide_True by done. simpl. lia.
  - assert (length (filter Q l) < length (filter P l))%nat
      by (apply IH; [done|]; intros; apply Himp; [by right|done]).
    destruct (decide (Q y)) as [Hy|Hy].
    + rewrite decide_True by (apply Himp; [left|done]). simpl. lia.
    + destruct (decide (P y)); simpl; lia.
Qed.

Lemma pop_snoc {A : Type} (l : list A) (x : A) : pop (l ++ [x]) = Ok l.
Proof.
  unfold pop. rewrite removelast_last. by destruct l.
Qed.

Lemma spell_cons (g : list (list string)) (r c : Z) (q : list Coord)
    (u : string) :
  spell g ((r, c) :: q) = Ok u
  ↔ ∃ tok u', getcell g r c = Ok tok ∧ spell g q = Ok u' ∧ u = tok +:+ u'.
Proof.
  cbn [spell]. split.
  - destruct (getcell g r c) as [tok| |]; cbn; try done.
    destruct (spell g q) as [u'| |]; cbn; try done.
    intros [= <-]. eauto.
  - intros (tok & u' & -> & -> & ->). done.
Qed.

Section Marker.

Variables rows cols : Z.
Implicit Types (vis : list (list bool)) (rc : Coord).

Lemma in_grid_nonneg rc : in_grid rows cols rc = true → 0 ≤ rc.1 ∧ 0 ≤ rc.2.
Proof. rewrite in_grid_spec. lia. Qed.

(** Marking a free cell, and the unmarking that undoes it. *)
Lemma mark_cell vis rc :
  whole rows cols vis → in_grid rows cols rc = true → free vis rc →
  setcell vis rc.1 rc.2 true = Ok (put vis rc true)
  ∧ setcell (put vis rc true) rc.1 rc.2 false = Ok vis
  ∧ whole rows cols (put vis rc true)
  ∧ (∀ rc', in_grid rows cols rc' = true →
       (free (put vis rc true) rc' ↔ free vis rc' ∧ rc' ≠ rc))
  ∧ (length (free_cells rows cols (put vis rc true))
     < length (free_cells rows cols vis))%nat.
Proof.
  intros Hwhole Hok Hfree. destruct (in_grid_nonneg rc Hok) as [Hr Hc].
  assert (∀ rc', in_grid rows cols rc' = true →
    cell_at (put vis rc true) rc'
    = if decide (rc' = rc) then Some true else cell_at vis rc') as Hput.
  { intros rc' Hok'. destruct (in_grid_nonneg rc' Hok').
    apply cell_at_put; eauto. }
  assert (∀ rc', in_grid rows cols rc' = true →
       (free (put vis rc true) rc' ↔ free vis rc' ∧ rc' ≠ rc)) as Hfree1.
  { intros rc' Hok'. unfold free. rewrite Hput by done.
    case_decide; naive_solver. }
  destruct rc as [r c]. simpl in Hr, Hc. cbn [fst snd]. split_and!.
  - by eapply setcell_nonneg.
  - rewrite (setcell_nonneg _ _ _ _ true); [|done..|].
    + f_equal. by apply put_put_id.
    + rewrite Hput by done. by rewrite decide_True.
  - intros rc' Hok'. rewrite Hput by done. case_decide; eauto.
  - done.
  - unfold free_cells. apply (length_filter_drop _ _ _ (r, c)).
    + by apply elem_of_start_cells.
    + done.
    + rewrite Hfree1 by done. naive_solver.
    + intros rc' Hin%elem_of_start_cells. rewrite Hfree1 by done.
      naive_solver.
Qed.

Lemma free_cells_nonempty vis rc :
  in_grid rows cols rc = true → free vis rc →
  (0 < length (free_cells rows cols vis))%nat.
Proof.
  intros Hok Hfree.
  assert (rc ∈ free_cells rows cols vis) as Hin.
  { apply list_elem_of_filter. split; [done|]. by apply elem_of_start_cells. }
  destruct (free_cells rows cols vis); [by apply elem_of_nil in Hin|].
  simpl. lia.
Qed.

Lemma length_free_cells vis :
  (length (free_cells rows cols vis) ≤ Z.to_nat rows * Z.to_nat cols)%nat.
Proof.
  unfold free_cells. rewrite <- length_start_cells. apply length_filter.
Qed.

End Marker.

(** ** What the search explores *)

Section Explored.

Variable g : list (list string).
Variables rows cols : Z.
Variable trie : Trie.
Variable cfg : SolveConfig.

Implicit Types (vis : list (list bool)) (rc : Coord) (path q : list Coord).
Implicit Types (paths : gmap string (list Coord)) (starts : Coord → Prop).

Local Abbreviation explored := (explored g rows cols trie cfg).

Lemma explored_none vis starts cur path paths :
  (∀ x q, starts x →
     ¬ walkable rows cols (allow_diagonal cfg) vis (x :: q)) →
  explored vis starts cur path paths paths.
Proof.
  intros Hnone. split; [done|by left|].
  intros x q u Hx Hwalk. by destruct (Hnone x q).
Qed.

Lemma explored_then vis starts1 starts2 cur path paths1 paths2 paths3 :
  explored vis starts1 cur path paths1 paths2 →
  explored vis starts2 cur path paths2 paths3 →
  explored vis (λ x, starts1 x ∨ starts2 x) cur path paths1 paths3.
Proof.
  intros [Hi1 Hs1 Hc1] [Hi2 Hs2 Hc2]. split.
  - by etrans.
  - intros w p Hp. destruct (Hs2 w p Hp) as [Hp2|(x & q & u & ? & ?)].
    + destruct (Hs1 w p Hp2) as [?|(x & q & u & ? & ?)]; [by left|].
      right. exists x, q, u. eauto.
    + right. exists x, q, u. eauto.
  - intros x q u [Hx|Hx] Hwalk Hspell Hacc.
    + eapply lookup_weaken_is_Some; [|done]. eauto.
    + eauto.
Qed.

Lemma explored_starts vis starts1 starts2 cur path paths1 paths2 :
  (∀ x, starts1 x ↔ starts2 x) →
  explored vis starts1 cur path paths1 paths2 →
  explored vis starts2 cur path paths1 paths2.
Proof.
  intros Heq [Hi Hs Hc]. split; [done|..].
  - intros w p Hp. destruct (Hs w p Hp) as [?|(x & q & u & ? & ?)]; [by left|].
    right. exists x, q, u. split; [by apply Heq|done].
  - intros x q u Hx. apply Hc. by apply Heq.
Qed.

End Explored.

(** ** The depth-first search with paths *)

Section DfsPaths.

Variable g : list (list string).
Variables rows cols : Z.
Variable trie : Trie.
Variable cfg : SolveConfig.

(** The grid has a token for every cell inside the bounds. *)
Hypothesis tokens_whole :
  ∀ rc, in_grid rows cols rc = true → is_Some (cell_at g rc).

Implicit Types (vis : list (list bool)) (rc : Coord) (path q : list Coord).
Implicit Types (paths : gmap string (list Coord)).

Local Abbreviation explored := (explored g rows cols trie cfg).
Local Abbreviation walkable := (walkable rows cols (allow_diagonal cfg)).
Local Abbreviation call := (dfs_paths g rows cols trie cfg).

Lemma token_at rc :
  in_grid rows cols rc = true → ∃ tok, getcell g rc.1 rc.2 = Ok tok.
Proof.
  intros Hok. destruct (in_grid_nonneg _ _ _ Hok).
  destruct (tokens_whole rc Hok) as [tok Htok]. exists tok.
  destruct rc as [r c]; simpl in *.
  rewrite getcell_nonneg by done. by rewrite Htok.
Qed.

Lemma seen_at vis rc :
  whole rows cols vis → in_grid rows cols rc = true →
  ∃ b, getcell vis rc.1 rc.2 = Ok b ∧ cell_at vis rc = Some b.
Proof.
  intros Hwhole Hok. destruct (in_grid_nonneg _ _ _ Hok).
  destruct (Hwhole rc Hok) as [b Hb]. exists b. split; [|done].
  destruct rc as [r c]; simpl in *.
  rewrite getcell_nonneg by done. by rewrite Hb.
Qed.

Local Abbreviation dfs_paths_explores :=
  (dfs_paths_explores g rows cols trie cfg).

(** The loop over the neighbours, given what the recursive calls do. *)
Lemma neighbours_explored fuel vis path next (l : list Coord) paths :
  dfs_paths_explores fuel →
  whole rows cols vis → (length (free_cells rows cols vis) ≤ fuel)%nat →
  Forall (λ rc, in_grid rows cols rc = true) l →
  ∃ paths',
    for_each l
      (λ '(nr, nc) '(visited, path, paths),
         seen ← getcell visited nr nc;
         if negb seen
         then call fuel nr nc next (visited, path, paths)
         else Ok (visited, path, paths))
      (vis, path, paths) = Ok (vis, path, paths')
    ∧ explored vis (λ x, x ∈ l) next path paths paths'.
Proof.
  intros Hrec Hwhole Hfuel. revert paths.
  induction l as [|[nr nc] l IH]; intros paths Hl.
  - exists paths. split; [done|]. apply explored_none.
    intros x q Hx. by apply elem_of_nil in Hx.
  - apply Forall_cons in Hl as [Hok Hl]. cbn [for_each].
    destruct (seen_at vis (nr, nc) Hwhole Hok) as (b & Hget & Hb).
    cbn [fst snd] in Hget. rewrite Hget.
    cbn [mbind outcome_bind]. destruct b; cbn [negb].
    + destruct (IH paths Hl) as (paths' & Hloop & Hexp).
      exists paths'. split; [exact Hloop|].
      apply explored_starts with (starts1 := λ x, x = (nr, nc) ∨ x ∈ l).
      { intros x. by rewrite elem_of_cons. }
      apply explored_then with (starts1 := λ x, x = (nr, nc))
        (starts2 := λ x, x ∈ l) (paths2 := paths); [|exact Hexp].
      apply explored_none. intros x q -> (_ & _ & Hq).
        apply Forall_cons in Hq as [[_ Hq] _]. unfold free in Hq. congruence.
    + destruct (Hrec nr nc next vis path paths) as (paths1 & Hcall & Hexp1);
        [done..|].
      rewrite Hcall. cbn [mbind outcome_bind].
      destruct (IH paths1 Hl) as (paths' & Hloop & Hexp).
      exists paths'. split; [exact Hloop|].
      apply explored_starts with (starts1 := λ x, x = (nr, nc) ∨ x ∈ l).
      { intros x. by rewrite elem_of_cons. }
      by apply explored_then with (starts1 := λ x, x = (nr, nc))
        (starts2 := λ x, x ∈ l) (paths2 := paths1).
Qed.

(** One call, given the loop over its neighbours. *)
Lemma dfs_paths_explores_step fuel :
  dfs_paths_explores fuel → dfs_paths_explores (S fuel).
Proof.
  intros Hrec r c cur vis path paths Hwhole Hok Hfree Hfuel.
  destruct (mark_cell rows cols vis (r, c))
    as (Hset & Hunset & Hwhole1 & Hfree1 & Hlt); [done..|].
  cbn [fst snd] in Hset, Hunset.
  destruct (token_at (r, c) Hok) as [tok Htok]. cbn [fst snd] in Htok.
  cbn [dfs_paths]. rewrite Hset. cbn [mbind outcome_bind].
  rewrite Htok. cbn [mbind outcome_bind].
  set (next := cur +:+ tok). set (vis1 := put vis (r, c) true) in *.
  destruct (has_prefix trie next) eqn:Hpre; cbn [negb].
  - set (paths1 := if accepts trie cfg next then _ else _).
    destruct (neighbours_explored fuel vis1 (path ++ [(r, c)]) next
                (neighbors r c rows cols (allow_diagonal cfg)) paths1)
      as (paths' & Hloop & [Hincl Hsound Hcompl]); [done|done|lia|..].
    { apply Forall_forall. by intros x [_ ?]%elem_of_neighbors. }
    exists paths'. split.
    { etrans; [apply (f_equal (λ o, o ≫= _) Hloop)|].
      cbn [mbind outcome_bind]. rewrite pop_snoc. cbn [mbind outcome_bind].
      by rewrite Hunset. }
    assert (paths ⊆ paths1) as Hincl1.
    { unfold paths1. destruct (accepts trie cfg next); [|done].
      destruct (paths !! next) eqn:E; [done|]. by apply insert_subseteq. }
    split.
    + by etrans.
    + intros w p Hp.
      destruct (Hsound w p Hp) as [Hp1|(x & q & u & Hx & -> & Hq & Hu & -> & Hacc)].
      * assert (paths !! w = Some p
                ∨ (w = next ∧ p = path ++ [(r, c)]
                   ∧ accepts trie cfg next = true)) as [?|(-> & -> & Hacc)].
        { unfold paths1 in Hp1. destruct (accepts trie cfg next); [|by left].
          destruct (paths !! next) eqn:E; [by left|].
          apply lookup_insert_Some in Hp1 as [[<- <-]|[_ ?]]; eauto. }
        { by left. }
        right. exists (r, c), [], (tok +:+ ""). split_and!; try done.
        -- split_and!; [apply NoDup_singleton|done|]. by apply Forall_singleton.
        -- apply spell_cons. by exists tok, "".
        -- by rewrite Str.app_nil_r.
      * right. exists (r, c), (x :: q), (tok +:+ u).
        apply elem_of_neighbors in Hx as [Hadj Hokx].
        destruct Hq as (Hnd & Hlink & Hall). split_and!.
        -- done.
        -- by rewrite <- (assoc_L (++)).
        -- split_and!.
           ++ apply NoDup_cons. split; [|done]. intros Hin.
              eapply Forall_forall in Hall as [Hok' Hfree']; [|exact Hin].
              apply Hfree1 in Hfree'; [|done]. by destruct Hfree'.
           ++ done.
           ++ apply Forall_cons. split; [done|].
              eapply Forall_impl; [exact Hall|].
              intros y [Hoky Hfreey]. split; [done|].
              by apply Hfree1 in Hfreey as [? _].
        -- apply spell_cons. by exists tok, u.
        -- unfold next. by rewrite Str.app_assoc.
        -- done.
    + intros x q u -> Hq [tok' (u' & Htok' & Hu' & ->)]%spell_cons Hacc.
      assert (tok' = tok) as -> by congruence.
      rewrite <- Str.app_assoc in *. fold next in Hacc |- *.
      destruct Hq as (Hnd & Hlink & Hall).
      apply NoDup_cons in Hnd as [Hnotin Hnd].
      apply Forall_cons in Hall as [_ Hall].
      destruct q as [|x q].
      * cbn in Hu'. injection Hu' as <-. rewrite Str.app_nil_r in *.
        apply (lookup_weaken_is_Some paths1); [|done].
        unfold paths1. rewrite Hacc.
        destruct (paths !! next) eqn:E; [by rewrite E|].
        by rewrite lookup_insert_eq.
      * destruct Hlink as [Hadj Hlink].
        pose proof Hall as [[Hokx _] _]%Forall_cons.
        apply (Hcompl x q u'); [|split_and!|done..].
        -- by apply elem_of_neighbors.
        -- done.
        -- done.
        -- eapply Forall_forall. intros y Hy.
           eapply Forall_forall in Hall as [Hoky Hfreey]; [|exact Hy].
           split; [done|]. apply Hfree1; [done|]. split; [done|].
           by intros ->.
  - rewrite pop_snoc. cbn [mbind outcome_bind]. rewrite Hunset.
    exists paths. split; [done|]. split; [done|by left|].
    intros x q u -> Hq [tok' (u' & Htok' & Hu' & ->)]%spell_cons Hacc.
    assert (tok' = tok) as -> by congruence.
    rewrite <- Str.app_assoc in Hacc. fold next in Hacc.
    apply andb_true_iff in Hacc as [_ Hword].
    rewrite (has_word_has_prefix trie next (next +:+ u')) in Hpre;
      [done|done|apply Str.prefix_of_app].
Qed.

Lemma dfs_paths_explores_all fuel : dfs_paths_explores fuel.
Proof.
  induction fuel as [|fuel IH]; [|by apply dfs_paths_explores_step].
  intros r c cur vis path paths _ Hok Hfree Hfuel.
  pose proof (free_cells_nonempty rows cols vis (r, c) Hok Hfree). lia.
Qed.

End DfsPaths.

(** ** The search without paths, through the search with paths *)

Section Agreement.

Variable g : list (list string).
Variables rows cols : Z.
Variable trie : Trie.
Variable cfg : SolveConfig.

Implicit Types (vis : list (list bool)) (path : list Coord).
Implicit Types (paths : gmap string (list Coord)).

Local Abbreviation dfs_agree := (dfs_agree g rows cols trie cfg).

Lemma neighbours_agree fuel next (l : list Coord) vis path paths :
  dfs_agree fuel →
  agree path
    (for_each l
       (λ '(nr, nc) '(visited, path, paths),
          seen ← getcell visited nr nc;
          if negb seen
          then dfs_paths g rows cols trie cfg fuel nr nc next
                 (visited, path, paths)
          else Ok (visited, path, paths))
       (vis, path, paths))
    (for_each l
       (λ '(nr, nc) '(visited, out),
          seen ← getcell visited nr nc;
          if negb seen
          then dfs g rows cols trie cfg fuel nr nc next (visited, out)
          else Ok (visited, out))
       (vis, dom paths)).
Proof.
  intros Hrec. revert vis paths.
  induction l as [|[nr nc] l IH]; intros vis paths; [done|].
  cbn [for_each].
  destruct (getcell vis nr nc) as [[]| |]; cbn [mbind outcome_bind negb];
    [apply IH| |done..].
  pose proof (Hrec nr nc next vis path paths) as Hcall.
  destruct (dfs_paths _ _ _ _ _ _ _ _ _ _) as [[[vis1 path1] paths1]| |],
    (dfs _ _ _ _ _ _ _ _ _ _) as [[vis2 out]| |]; try done.
  destruct Hcall as (<- & -> & <-). cbn [mbind outcome_bind]. apply IH.
Qed.

Lemma dom_record paths (w : string) path :
  dom (match paths !! w with
       | None => <[w := path]> paths
       | Some _ => paths
       end) = {[w]} ∪ dom paths.
Proof.
  destruct (paths !! w) eqn:E.
  - apply (elem_of_dom_2 paths) in E. set_solver.
  - apply dom_insert_L.
Qed.

Lemma dfs_agree_all fuel : dfs_agree fuel.
Proof.
  induction fuel as [|fuel IH]; intros r c cur vis path paths; [done|].
  cbn [dfs_paths dfs].
  destruct (setcell vis r c true) as [vis1| |]; cbn [mbind outcome_bind];
    [|done..].
  destruct (getcell g r c) as [tok| |]; cbn [mbind outcome_bind]; [|done..].
  destruct (has_prefix trie (cur +:+ tok)); cbn [negb].
  - set (paths1 := if accepts trie cfg (cur +:+ tok) then _ else _).
    assert ((if accepts trie cfg (cur +:+ tok)
             then {[cur +:+ tok]} ∪ dom paths else dom paths) = dom paths1)
      as ->.
    { unfold paths1. destruct (accepts trie cfg (cur +:+ tok)); [|done].
      by rewrite dom_record. }
    pose proof (neighbours_agree fuel (cur +:+ tok)
      (neighbors r c rows cols (allow_diagonal cfg)) vis1
      (path ++ [(r, c)]) paths1 IH) as Hloop.
    destruct (for_each _ _ (vis1, path ++ [(r, c)], paths1))
      as [[[vis2 path2] paths2]| |],
      (for_each _ _ (vis1, dom paths1)) as [[vis3 out]| |]; try done.
    destruct Hloop as (<- & -> & <-). cbn [mbind outcome_bind].
    rewrite pop_snoc. cbn [mbind outcome_bind].
    by destruct (setcell vis2 r c false).
  - rewrite pop_snoc. cbn [mbind outcome_bind].
    by destruct (setcell vis1 r c false).
Qed.

End Agreement.

(** The two entry points agree, whatever the fuel of the two. *)
Lemma solve_grid_fuel_agree (fuel : nat) (grid : list (list string))
    (trie : Trie) (cfg : SolveConfig) :
  dom <$> solve_grid_with_paths_fuel fuel grid trie cfg
  = solve_grid_fuel fuel grid trie cfg.
Proof.
  unfold solve_grid_with_paths_fuel, solve_grid_fuel.
  destruct grid as [|[|cell row] grid]; [by rewrite ?dom_empty_L..|].
  set (grid0 := (cell :: row) :: grid).
  set (g := tokens grid0). set (R := Z.of_nat (grid_rows grid0)).
  set (C := Z.of_nat (grid_cols grid0)).
  rewrite (for_each_start_cells R C
    (λ r c '(visited, paths),
       st ← dfs_paths g R C trie cfg fuel r c "" (visited, [], paths);
       Ok (st.1.1, st.2))).
  rewrite (for_each_start_cells R C (λ r c, dfs g R C trie cfg fuel r c "")).
  generalize (fresh_visited (grid_rows grid0) (grid_cols grid0)) as vis.
  rewrite <- (dom_empty_L (D := gset string) (A := list Coord)).
  generalize (∅ : gmap string (list Coord)) as paths.
  induction (start_cells R C) as [|[r c] l IH]; intros paths vis; [done|].
  cbn [for_each fst snd].
  pose proof (dfs_agree_all g R C trie cfg fuel r c "" vis [] paths) as Hcall.
  destruct (dfs_paths _ _ _ _ _ _ _ _ _ _) as [[[vis1 path1] paths1]| |],
    (dfs _ _ _ _ _ _ _ _ _ _) as [[vis2 out]| |]; try done.
  destruct Hcall as (<- & -> & <-). cbn [mbind outcome_bind fst snd].
  apply IH.
Qed.

(** ** The grid and the fresh visited marker *)

Section Grid.

Variable grid : list (list string).
Implicit Types (rc : Coord).

Lemma cell_at_tokens rc : cell_at (tokens grid) rc = normalize <$> cell_at grid rc.
Proof.
  unfold cell_at, tokens. rewrite list_lookup_fmap.
  destruct (grid !! Z.to_nat rc.1) as [row|]; simpl; [|done].
  apply list_lookup_fmap.
Qed.

Lemma covered_tokens_whole rc :
  covered grid → inside grid rc → is_Some (cell_at (tokens grid) rc).
Proof.
  intros Hcov Hin. apply in_grid_spec in Hin as [Hr Hc].
  rewrite cell_at_tokens. apply fmap_is_Some. unfold cell_at.
  destruct (lookup_lt_is_Some_2 grid (Z.to_nat rc.1)) as [row Hrow].
  { unfold grid_rows in Hr. lia. }
  rewrite Hrow. simpl. apply lookup_lt_is_Some_2.
  eapply Forall_lookup_1 in Hcov; [|exact Hrow]. simpl in Hcov. lia.
Qed.

Lemma rectangular_covered : rectangular grid → covered grid.
Proof.
  intros Hrect. eapply Forall_impl; [exact Hrect|]. by intros row ->.
Qed.

Lemma fresh_visited_free rc :
  inside grid rc →
  free (fresh_visited (grid_rows grid) (grid_cols grid)) rc.
Proof.
  intros [Hr Hc]%in_grid_spec. unfold free, cell_at, fresh_visited.
  rewrite lookup_replicate_2 by lia. simpl.
  apply lookup_replicate_2. lia.
Qed.

Lemma fresh_visited_whole :
  whole (Z.of_nat (grid_rows grid)) (Z.of_nat (grid_cols grid))
        (fresh_visited (grid_rows grid) (grid_cols grid)).
Proof. intros rc Hin. by rewrite fresh_visited_free. Qed.

End Grid.

Lemma getitem_elem {A : Type} (l : list A) (i : Z) (x : A) :
  getitem l i = Ok x → x ∈ l.
Proof.
  unfold getitem. destruct (subscript (length l) i) as [k|]; [|done].
  destruct (l !! k) as [y|] eqn:E; [|done]. intros [= <-].
  by eapply list_elem_of_lookup_2.
Qed.

Lemma getcell_elem {A : Type} (m : list (list A)) (r c : Z) (x : A) :
  getcell m r c = Ok x → ∃ row, row ∈ m ∧ x ∈ row.
Proof.
  unfold getcell. destruct (getitem m r) as [row| |] eqn:E; cbn; try done.
  intros Hx. exists row. eauto using getitem_elem.
Qed.

(** The length of a spelled word, when the tokens are single characters or
    shorter. *)
Lemma spell_length (grid : list (list string)) (p : list Coord) (w : string) :
  spell (tokens grid) p = Ok w →
  (single_letters grid → String.length w = length p)
  ∧ (short_tokens grid → (String.length w ≤ length p)%nat).
Proof.
  revert w. induction p as [|[r c] p IH]; intros w.
  - intros [= <-]. done.
  - intros (tok & u & Htok & Hu & ->)%spell_cons.
    destruct (IH u Hu) as [IH1 IH2].
    apply getcell_elem in Htok as (row & Hrow & Htok).
    unfold tokens in Hrow. apply list_elem_of_fmap in Hrow as (row0 & -> & Hrow0).
    apply list_elem_of_fmap in Htok as (cell & -> & Hcell).
    rewrite Str.length_app. simpl. split; intros Hgrid.
    + pose proof (IH1 Hgrid).
      eapply Forall_forall in Hgrid; [|exact Hrow0].
      eapply Forall_forall in Hgrid; [|exact Hcell].
      simpl in Hgrid. lia.
    + pose proof (IH2 Hgrid).
      eapply Forall_forall in Hgrid; [|exact Hrow0].
      eapply Forall_forall in Hgrid; [|exact Hcell].
      simpl in Hgrid. lia.
Qed.

(** A simple path inside the grid has no more cells than the grid. *)
Lemma traces_length (grid : list (list string)) (diag : bool)
    (p : list Coord) (w : string) :
  traces grid diag p w → (length p ≤ grid_rows grid * grid_cols grid)%nat.
Proof.
  intros [_ Hnd _ Hin _].
  rewrite <- (Nat2Z.id (grid_rows grid)), <- (Nat2Z.id (grid_cols grid)).
  rewrite <- length_start_cells. apply submseteq_length.
  apply NoDup_submseteq; [done|]. intros rc Hrc.
  apply elem_of_start_cells. by eapply Forall_forall in Hin.
Qed.

(** ** The two entry points on a grid with no row shorter than the first *)

Lemma no_trace_in_empty_grid (grid : list (list string)) (diag : bool)
    (p : list Coord) (w : string) :
  (grid_rows grid * grid_cols grid = 0)%nat → ¬ traces grid diag p w.
Proof.
  intros Hzero [Hne _ _ Hin _]. destruct p as [|rc p]; [done|].
  apply Forall_cons in Hin as [[Hr Hc]%in_grid_spec _].
  apply Nat.eq_mul_0 in Hzero as [?|?]; lia.
Qed.

Lemma solve_grid_with_paths_covered (fuel : nat) (grid : list (list string))
    (trie : Trie) (cfg : SolveConfig) :
  covered grid → (enough_fuel grid ≤ fuel)%nat →
  ∃ paths,
    solve_grid_with_paths_fuel fuel grid trie cfg = Ok paths
    ∧ (∀ w p, paths !! w = Some p →
         traces grid (allow_diagonal cfg) p w ∧ accepts trie cfg w = true)
    ∧ (∀ w p, traces grid (allow_diagonal cfg) p w →
         accepts trie cfg w = true → is_Some (paths !! w)).
Proof.
  intros Hcov Hfuel.
  destruct (decide (grid_rows grid * grid_cols grid = 0)%nat) as [Hzero|Hpos].
  { exists ∅. split_and!.
    - by destruct grid as [|[|cell row] grid].
    - intros w p Hp. by rewrite lookup_empty in Hp.
    - intros w p Htr. by apply no_trace_in_empty_grid in Htr. }
  set (g := tokens grid). set (R := Z.of_nat (grid_rows grid)).
  set (C := Z.of_nat (grid_cols grid)).
  set (vis0 := fresh_visited (grid_rows grid) (grid_cols grid)).
  assert (∀ (l : list Coord) paths, Forall (inside grid) l →
    ∃ paths',
      for_each l
        (λ rc '(visited, paths),
           st ← dfs_paths g R C trie cfg fuel rc.1 rc.2 "" (visited, [], paths);
           Ok (st.1.1, st.2))
        (vis0, paths) = Ok (vis0, paths')
      ∧ explored g R C trie cfg vis0 (λ x, x ∈ l) "" [] paths paths') as Hloop.
  { induction l as [|[r c] l IH]; intros paths Hl.
    - exists paths. split; [done|]. apply explored_none.
      intros x q Hx. by apply elem_of_nil in Hx.
    - apply Forall_cons in Hl as [Hok Hl]. cbn [for_each fst snd].
      destruct (dfs_paths_explores_all g R C trie cfg
                  (λ rc, covered_tokens_whole grid rc Hcov)
                  fuel r c "" vis0 [] paths) as (paths1 & -> & Hexp1).
      + apply fresh_visited_whole.
      + done.
      + by apply fresh_visited_free.
      + etrans; [apply length_free_cells|]. unfold R, C.
        by rewrite !Nat2Z.id.
      + cbn [mbind outcome_bind fst snd].
        destruct (IH paths1 Hl) as (paths' & Hrun & Hexp).
        exists paths'. split; [exact Hrun|].
        apply explored_starts with (starts1 := λ x, x = (r, c) ∨ x ∈ l).
        { intros x. by rewrite elem_of_cons. }
        by apply explored_then with (starts1 := λ x, x = (r, c))
          (starts2 := λ x, x ∈ l) (paths2 := paths1). }
  destruct (Hloop (start_cells R C) ∅) as (paths & Hrun & [_ Hsound Hcompl]).
  { apply Forall_forall. by intros rc ?%elem_of_start_cells. }
  exists paths. split_and!.
  - unfold solve_grid_with_paths_fuel.
    destruct grid as [|[|cell row] grid];
      [exfalso; apply Hpos; unfold grid_rows, grid_cols; simpl; lia..|].
    rewrite (for_each_start_cells R C
      (λ r c '(visited, paths),
         st ← dfs_paths g R C trie cfg fuel r c "" (visited, [], paths);
         Ok (st.1.1, st.2))).
    etrans; [apply (f_equal (λ o, o ≫= _) Hrun)|]. done.
  - intros w p Hp.
    destruct (Hsound w p Hp)
      as [Hemp|(x & q & u & _ & -> & (Hnd & Hlink & Hall) & Hu & -> & Hacc)].
    { by rewrite lookup_empty in Hemp. }
    split; [|done]. split; try done.
    eapply Forall_impl; [exact Hall|]. by intros rc [? _].
  - intros w [|x q] [Hne Hnd Hlink Hin Hspell] Hacc; [done|].
    apply (Hcompl x q w); try done.
    + apply elem_of_start_cells. by apply Forall_cons in Hin as [? _].
    + split_and!; try done. eapply Forall_impl; [exact Hin|].
      intros rc Hrc. split; [done|]. by apply fresh_visited_free.
Qed.

(** The same for the search without paths. *)
Lemma solve_grid_covered (fuel : nat) (grid : list (list string))
    (trie : Trie) (cfg : SolveConfig) :
  covered grid → (enough_fuel grid ≤ fuel)%nat →
  ∃ out,
    solve_grid_fuel fuel grid trie cfg = Ok out
    ∧ ∀ w, w ∈ out ↔
        accepts trie cfg w = true ∧ ∃ p, traces grid (allow_diagonal cfg) p w.
Proof.
  intros Hcov Hfuel.
  destruct (solve_grid_with_paths_covered fuel grid trie cfg Hcov Hfuel)
    as (paths & Hrun & Hsound & Hcompl).
  exists (dom paths). split.
  - rewrite <- solve_grid_fuel_agree. by rewrite Hrun.
  - intros w. rewrite elem_of_dom. split.
    + intros [p Hp]. destruct (Hsound w p Hp). eauto.
    + intros [Hacc [p Hp]]. eauto.
Qed.

(** A search that returns has read a token in every cell: no row of the grid
    is shorter than the first. *)
Lemma solve_grid_Ok_covered (fuel : nat) (grid : list (list string))
    (trie : Trie) (cfg : SolveConfig) (out : gset string) :
  solve_grid_fuel fuel grid trie cfg = Ok out → covered grid.
Proof.
  unfold solve_grid_fuel. intros Hrun.
  destruct (decide (grid_cols grid = 0)%nat) as [Hzero|Hpos].
  { apply Forall_forall. intros row _. lia. }
  destruct grid as [|[|cell row] grid]; [done..|].
  set (grid0 := (cell :: row) :: grid) in *.
  rewrite (for_each_start_cells _ _
    (λ r c, dfs (tokens grid0) (Z.of_nat (grid_rows grid0))
              (Z.of_nat (grid_cols grid0)) trie cfg fuel r c "")) in Hrun.
  destruct (for_each _ _ _) as [st| |] eqn:Hloop; [|done..].
  apply Forall_lookup_2. intros i rowi Hi.
  assert ((Z.of_nat i, Z.of_nat (grid_cols grid0) - 1)
          ∈ start_cells (Z.of_nat (grid_rows grid0))
              (Z.of_nat (grid_cols grid0))) as Hcell.
  { apply elem_of_start_cells, in_grid_spec. cbn [fst snd].
    apply lookup_lt_Some in Hi. unfold grid_rows. lia. }
  destruct (for_each_Ok_turn _ _ _ _ _ Hloop Hcell) as ([vis o] & st2 & Hcall).
  cbn [fst snd] in Hcall. destruct fuel as [|fuel]; [done|].
  cbn [dfs] in Hcall.
  destruct (setcell vis _ _ true); cbn [mbind outcome_bind] in Hcall; [|done..].
  destruct (getcell (tokens grid0) _ _) as [tok| |] eqn:Htok; [|done..].
  rewrite getcell_nonneg in Htok by lia.
  rewrite cell_at_tokens in Htok. unfold cell_at in Htok. cbn [fst snd] in Htok.
  rewrite Nat2Z.id, Hi in Htok. cbn in Htok.
  destruct (rowi !! _) eqn:Hlast; [|done].
  apply lookup_lt_Some in Hlast.
  change (grid_cols grid0) with (S (length row)). lia.
Qed.

(** ** More fuel changes nothing *)

Lemma dfs_paths_more_fuel (g : list (list string)) (rows cols : Z)
    (trie : Trie) (cfg : SolveConfig) (fuel : nat) :
  ∀ (fuel' : nat) (r c : Z) (cur : string) st st',
    (fuel ≤ fuel')%nat →
    dfs_paths g rows cols trie cfg fuel r c cur st = Ok st' →
    dfs_paths g rows cols trie cfg fuel' r c cur st = Ok st'.
Proof.
  induction fuel as [|fuel IH];
    intros fuel' r c cur [[vis path] paths] st' Hle Hrun; [done|].
  destruct fuel' as [|fuel']; [lia|]. cbn [dfs_paths] in Hrun |- *.
  destruct (setcell vis r c true) as [vis1| |];
    cbn [mbind outcome_bind] in Hrun |- *; [|done..].
  destruct (getcell g r c) as [tok| |];
    cbn [mbind outcome_bind] in Hrun |- *; [|done..].
  destruct (has_prefix trie (cur +:+ tok)); cbn [negb] in Hrun |- *; [|done].
  match type of Hrun with
  | for_each ?l ?body ?s ≫= ?k = _ =>
      destruct (for_each l body s) as [st1| |] eqn:Hloop; [|done..];
      apply for_each_Ok_mono
        with (body2 := λ '(nr, nc) '(visited, path, paths),
                seen ← getcell visited nr nc;
                if negb seen
                then dfs_paths g rows cols trie cfg fuel' nr nc (cur +:+ tok)
                       (visited, path, paths)
                else Ok (visited, path, paths)) in Hloop
  end.
  - etrans; [apply (f_equal (λ o, o ≫= _) Hloop)|exact Hrun].
  - intros [nr nc] [[v p] ps] s2. cbn.
    destruct (getcell v nr nc) as [[]| |]; cbn; try done.
    apply IH. lia.
Qed.

Lemma solve_grid_with_paths_more_fuel (fuel fuel' : nat)
    (grid : list (list string)) (trie : Trie) (cfg : SolveConfig)
    (paths : gmap string (list Coord)) :
  (fuel ≤ fuel')%nat →
  solve_grid_with_paths_fuel fuel grid trie cfg = Ok paths →
  solve_grid_with_paths_fuel fuel' grid trie cfg = Ok paths.
Proof.
  intros Hle. unfold solve_grid_with_paths_fuel.
  destruct grid as [|[|cell row] grid]; [done..|].
  match goal with
  | |- for_each ?l ?body ?s ≫= ?k = _ → _ =>
      destruct (for_each l body s) as [st1| |] eqn:Hloop; [|done..]
  end.
  intros Hrun. eapply for_each_Ok_mono in Hloop;
    [etrans; [apply (f_equal (λ o, o ≫= _) Hloop)|exact Hrun]|].
  intros r s1 s2. apply for_each_Ok_mono.
  intros c [vis ps] s3. cbn.
  destruct (dfs_paths _ _ _ _ _ fuel _ _ _ _) as [st| |] eqn:Hcall; [|done..].
  by rewrite (dfs_paths_more_fuel _ _ _ _ _ _ _ _ _ _ _ _ Hle Hcall).
Qed.

(** ** Runs that end in a result or in an [IndexError] *)

Lemma getitem_no_fuel {A : Type} (l : list A) (i : Z) : getitem l i ≠ RecursionError.
Proof.
  unfold getitem. destruct (subscript _ _); [|done]. by destruct (l !! _).
Qed.

Lemma getcell_no_fuel {A : Type} (m : list (list A)) (r c : Z) :
  getcell m r c ≠ RecursionError.
Proof.
  unfold getcell. destruct (getitem m r) as [row| |] eqn:E; cbn; [|done|].
  - apply getitem_no_fuel.
  - by apply getitem_no_fuel in E.
Qed.

Section Settles.

Variable g : list (list string).
Variables rows cols : Z.
Variable trie : Trie.
Variable cfg : SolveConfig.

Implicit Types (vis : list (list bool)) (path : list Coord).
Implicit Types (paths : gmap string (list Coord)).

Local Abbreviation dfs_paths_settles := (dfs_paths_settles g rows cols trie cfg).

Lemma neighbours_settle fuel vis path next (l : list Coord) paths :
  dfs_paths_settles fuel →
  whole rows cols vis → (length (free_cells rows cols vis) ≤ fuel)%nat →
  Forall (λ rc, in_grid rows cols rc = true) l →
  settled vis path
    (for_each l
       (λ '(nr, nc) '(visited, path, paths),
          seen ← getcell visited nr nc;
          if negb seen
          then dfs_paths g rows cols trie cfg fuel nr nc next
                 (visited, path, paths)
          else Ok (visited, path, paths))
       (vis, path, paths)).
Proof.
  intros Hrec Hwhole Hfuel. revert paths.
  induction l as [|[nr nc] l IH]; intros paths Hl.
  - right. by exists paths.
  - apply Forall_cons in Hl as [Hok Hl]. cbn [for_each].
    destruct (in_grid_nonneg _ _ _ Hok) as [Hr Hc]. cbn [fst snd] in Hr, Hc.
    destruct (Hwhole (nr, nc) Hok) as [b Hb].
    rewrite getcell_nonneg, Hb by done. cbn [from_option mbind outcome_bind].
    destruct b; cbn [negb]; [by apply IH|].
    destruct (Hrec nr nc next vis path paths) as [Herr|[paths1 Hcall]];
      [done..| |].
    + left. by rewrite Herr.
    + rewrite Hcall. cbn [mbind outcome_bind]. by apply IH.
Qed.

Lemma dfs_paths_settles_step fuel :
  dfs_paths_settles fuel → dfs_paths_settles (S fuel).
Proof.
  intros Hrec r c cur vis path paths Hwhole Hok Hfree Hfuel.
  destruct (mark_cell rows cols vis (r, c))
    as (Hset & Hunset & Hwhole1 & _ & Hlt); [done..|].
  cbn [fst snd] in Hset, Hunset.
  cbn [dfs_paths]. rewrite Hset. cbn [mbind outcome_bind].
  destruct (getcell g r c) as [tok| |] eqn:Htok; cbn [mbind outcome_bind].
  - destruct (has_prefix trie (cur +:+ tok)); cbn [negb].
    + set (paths1 := if accepts trie cfg (cur +:+ tok) then _ else _).
      destruct (neighbours_settle fuel (put vis (r, c) true)
                  (path ++ [(r, c)]) (cur +:+ tok)
                  (neighbors r c rows cols (allow_diagonal cfg)) paths1)
        as [Herr|[paths' Hloop]]; [done|done|lia|..].
      { apply Forall_forall. by intros x [_ ?]%elem_of_neighbors. }
      * left. etrans; [apply (f_equal (λ o, o ≫= _) Herr)|]. done.
      * right. exists paths'.
        etrans; [apply (f_equal (λ o, o ≫= _) Hloop)|].
        cbn [mbind outcome_bind]. rewrite pop_snoc. cbn [mbind outcome_bind].
        by rewrite Hunset.
    + right. exists paths. rewrite pop_snoc. cbn [mbind outcome_bind].
      by rewrite Hunset.
  - by left.
  - by apply getcell_no_fuel in Htok.
Qed.

Lemma dfs_paths_settles_all fuel : dfs_paths_settles fuel.
Proof.
  induction fuel as [|fuel IH]; [|by apply dfs_paths_settles_step].
  intros r c cur vis path paths _ Hok Hfree Hfuel.
  pose proof (free_cells_nonempty rows cols vis (r, c) Hok Hfree). lia.
Qed.

End Settles.

(** With enough fuel the search in path mode ends in a result or in an
    [IndexError], whatever the grid. *)
Lemma solve_grid_with_paths_settles (fuel : nat) (grid : list (list string))
    (trie : Trie) (cfg : SolveConfig) :
  (enough_fuel grid ≤ fuel)%nat →
  solve_grid_with_paths_fuel fuel grid trie cfg ≠ RecursionError.
Proof.
  intros Hfuel. unfold solve_grid_with_paths_fuel.
  destruct grid as [|[|cell row] grid]; [done..|].
  set (grid0 := (cell :: row) :: grid) in *.
  set (g := tokens grid0). set (R := Z.of_nat (grid_rows grid0)).
  set (C := Z.of_nat (grid_cols grid0)).
  set (vis0 := fresh_visited (grid_rows grid0) (grid_cols grid0)).
  rewrite (for_each_start_cells R C
    (λ r c '(visited, paths),
       st ← dfs_paths g R C trie cfg fuel r c "" (visited, [], paths);
       Ok (st.1.1, st.2))).
  assert (∀ (l : list Coord) paths, Forall (inside grid0) l →
    for_each l
      (λ rc '(visited, paths),
         st ← dfs_paths g R C trie cfg fuel rc.1 rc.2 "" (visited, [], paths);
         Ok (st.1.1, st.2))
      (vis0, paths) = IndexError
    ∨ ∃ paths', for_each l
      (λ rc '(visited, paths),
         st ← dfs_paths g R C trie cfg fuel rc.1 rc.2 "" (visited, [], paths);
         Ok (st.1.1, st.2))
      (vis0, paths) = Ok (vis0, paths')) as Hloop.
  { induction l as [|[r c] l IH]; intros paths Hl.
    - right. by exists paths.
    - apply Forall_cons in Hl as [Hok Hl]. cbn [for_each fst snd].
      destruct (dfs_paths_settles_all g R C trie cfg fuel r c "" vis0 []
                  paths) as [Herr|[paths1 Hcall]].
      + apply fresh_visited_whole.
      + done.
      + by apply fresh_visited_free.
      + etrans; [apply length_free_cells|]. unfold R, C.
        by rewrite !Nat2Z.id.
      + left. by rewrite Herr.
      + rewrite Hcall. cbn [mbind outcome_bind fst snd]. by apply IH. }
  destruct (Hloop (start_cells R C) ∅) as [Herr|[paths Hrun]].
  { apply Forall_forall. by intros rc ?%elem_of_start_cells. }
  - intros Hbad. apply (f_equal (λ o, o ≫= λ st, Ok st.2)) in Herr.
    cbn [mbind outcome_bind] in Herr. congruence.
  - intros Hbad. apply (f_equal (λ o, o ≫= λ st, Ok st.2)) in Hrun.
    cbn [mbind outcome_bind] in Hrun. congruence.
Qed.

(** ** The recursion limit *)

(** A loop whose turns keep their outcome under another body keeps its own,
    as long as that outcome is not [RecursionError]. *)
Lemma for_each_stable {A S : Type} (xs : list A)
    (body1 body2 : A → S → outcome S) (s : S) (o : outcome S) :
  (∀ x s1 o1, o1 ≠ RecursionError → body1 x s1 = o1 → body2 x s1 = o1) →
  o ≠ RecursionError →
  for_each xs body1 s = o → for_each xs body2 s = o.
Proof.
  intros Hbody Ho. revert s. induction xs as [|x xs IH]; intros s; [done|].
  simpl. destruct (body1 x s) as [s2| |] eqn:Hx.
  - rewrite (Hbody x s (Ok s2)) by done. simpl. apply IH.
  - rewrite (Hbody x s IndexError) by done. done.
  - simpl. intros <-. done.
Qed.

(** An outcome of [dfs] other than [RecursionError] is its outcome under
    every larger limit. *)
Lemma dfs_paths_stable (g : list (list string)) (rows cols : Z)
    (trie : Trie) (cfg : SolveConfig) (fuel : nat) :
  ∀ (fuel' : nat) (r c : Z) (cur : string) st o,
    (fuel ≤ fuel')%nat → o ≠ RecursionError →
    dfs_paths g rows cols trie cfg fuel r c cur st = o →
    dfs_paths g rows cols trie cfg fuel' r c cur st = o.
Proof.
  induction fuel as [|fuel IH];
    intros fuel' r c cur [[vis path] paths] o Hle Ho Hrun.
  { simpl in Hrun. congruence. }
  destruct fuel' as [|fuel']; [lia|]. cbn [dfs_paths] in Hrun |- *.
  destruct (setcell vis r c true) as [vis1| |];
    cbn [mbind outcome_bind] in Hrun |- *; [|done..].
  destruct (getcell g r c) as [tok| |];
    cbn [mbind outcome_bind] in Hrun |- *; [|done..].
  destruct (has_prefix trie (cur +:+ tok)); cbn [negb] in Hrun |- *; [|done].
  match type of Hrun with
  | for_each ?l ?body ?s ≫= ?k = _ =>
      destruct (for_each l body s) as [st1| |] eqn:Hloop;
      [| |cbn [mbind outcome_bind] in Hrun; congruence];
      apply for_each_stable
        with (body2 := λ '(nr, nc) '(visited, path, paths),
                seen ← getcell visited nr nc;
                if negb seen
                then dfs_paths g rows cols trie cfg fuel' nr nc (cur +:+ tok)
                       (visited, path, paths)
                else Ok (visited, path, paths)) in Hloop; try done
  end.
  1, 3: etrans; [apply (f_equal (λ o, o ≫= _) Hloop)|exact Hrun].
  all: intros [nr nc] [[v p] ps] o1 Ho1; cbn;
    destruct (getcell v nr nc) as [[]| |]; cbn; try done;
    apply IH; [lia|done].
Qed.

Lemma solve_grid_with_paths_stable (fuel fuel' : nat)
    (grid : list (list string)) (trie : Trie) (cfg : SolveConfig)
    (o : outcome (gmap string (list Coord))) :
  (fuel ≤ fuel')%nat → o ≠ RecursionError →
  solve_grid_with_paths_fuel fuel grid trie cfg = o →
  solve_grid_with_paths_fuel fuel' grid trie cfg = o.
Proof.
  intros Hle Ho. unfold solve_grid_with_paths_fuel.
  destruct grid as [|[|cell row] grid]; [done..|].
  match goal with
  | |- for_each ?l ?body ?s ≫= ?k = _ → _ =>
      destruct (for_each l body s) as [st1| |] eqn:Hloop;
      [| |cbn [mbind outcome_bind]; congruence]
  end.
  all: intros Hrun; eapply for_each_stable in Hloop;
    [etrans; [apply (f_equal (λ o, o ≫= _) Hloop)|exact Hrun]| |done].
  all: intros r s1 o1 Ho1; apply for_each_stable; [|done].
  all: intros c [vis ps] o2 Ho2; cbn.
  all: destruct (dfs_paths _ _ _ _ _ fuel _ _ _ _) as [st| |] eqn:Hcall.
  all: try (cbn; intros <-; done).
  all: try (rewrite (dfs_paths_stable _ _ _ _ _ fuel fuel' _ _ _ _ (Ok st)
                       Hle ltac:(done) Hcall); done).
  all: rewrite (dfs_paths_stable _ _ _ _ _ fuel fuel' _ _ _ _ IndexError
                  Hle ltac:(done) Hcall); done.
Qed.

Lemma solve_grid_stable (fuel fuel' : nat) (grid : list (list string))
    (trie : Trie) (cfg : SolveConfig) (o : outcome (gset string)) :
  (fuel ≤ fuel')%nat → o ≠ RecursionError →
  solve_grid_fuel fuel grid trie cfg = o →
  solve_grid_fuel fuel' grid trie cfg = o.
Proof.
  intros Hle Ho. rewrite <- !solve_grid_fuel_agree.
  destruct (solve_grid_with_paths_fuel fuel grid trie cfg) as [paths| |] eqn:E.
  - intros <-.
    by rewrite (solve_grid_with_paths_stable fuel fuel' _ _ _ (Ok paths)).
  - intros <-.
    by rewrite (solve_grid_with_paths_stable fuel fuel' _ _ _ IndexError).
  - intros <-. done.
Qed.

(** A run that does not meet the limit has the outcome of the entry point
    with room enough; and with room enough every run has that outcome. *)
Lemma solve_grid_with_paths_fuel_settled (fuel : nat)
    (grid : list (list string)) (trie : Trie) (cfg : SolveConfig)
    (o : outcome (gmap string (list Coord))) :
  o ≠ RecursionError →
  solve_grid_with_paths_fuel fuel grid trie cfg = o →
  solve_grid_with_paths grid trie cfg = o.
Proof.
  intros Ho Hrun. unfold solve_grid_with_paths.
  apply (solve_grid_with_paths_stable fuel (fuel `max` enough_fuel grid))
    in Hrun; [|lia|done].
  destruct (solve_grid_with_paths_fuel (enough_fuel grid) grid trie cfg)
    as [paths| |] eqn:E.
  - apply (solve_grid_with_paths_stable _ (fuel `max` enough_fuel grid))
      in E; [congruence|lia|done].
  - apply (solve_grid_with_paths_stable _ (fuel `max` enough_fuel grid))
      in E; [congruence|lia|done].
  - by apply solve_grid_with_paths_settles in E.
Qed.

Lemma solve_grid_with_paths_fuel_enough (fuel : nat)
    (grid : list (list string)) (trie : Trie) (cfg : SolveConfig) :
  (enough_fuel grid ≤ fuel)%nat →
  solve_grid_with_paths_fuel fuel grid trie cfg
  = solve_grid_with_paths grid trie cfg.
Proof.
  intros Hle. symmetry. eapply solve_grid_with_paths_fuel_settled; [|done].
  by apply solve_grid_with_paths_settles.
Qed.

Lemma solve_grid_fuel_settled (fuel : nat) (grid : list (list string))
    (trie : Trie) (cfg : SolveConfig) (o : outcome (gset string)) :
  o ≠ RecursionError →
  solve_grid_fuel fuel grid trie cfg = o → solve_grid grid trie cfg = o.
Proof.
  intros Ho. unfold solve_grid. rewrite <- !solve_grid_fuel_agree.
  destruct (solve_grid_with_paths_fuel fuel grid trie cfg) as [paths| |] eqn:E;
    intros <-; try done.
  - apply solve_grid_with_paths_fuel_settled in E; [|done].
    unfold solve_grid_with_paths in E. by rewrite E.
  - apply solve_grid_with_paths_fuel_settled in E; [|done].
    unfold solve_grid_with_paths in E. by rewrite E.
Qed.

Lemma solve_grid_fuel_Ok (fuel : nat) (grid : list (list string))
    (trie : Trie) (cfg : SolveConfig) (out : gset string) :
  solve_grid_fuel fuel grid trie cfg = Ok out →
  solve_grid grid trie cfg = Ok out.
Proof. by apply solve_grid_fuel_settled. Qed.

Lemma solve_grid_with_paths_fuel_Ok (fuel : nat) (grid : list (list string))
    (trie : Trie) (cfg : SolveConfig) (paths : gmap string (list Coord)) :
  solve_grid_with_paths_fuel fuel grid trie cfg = Ok paths →
  solve_grid_with_paths grid trie cfg = Ok paths.
Proof. by apply solve_grid_with_paths_fuel_settled. Qed.

Lemma solve_grid_fuel_enough (fuel : nat) (grid : list (list string))
    (trie : Trie) (cfg : SolveConfig) :
  (enough_fuel grid ≤ fuel)%nat →
  solve_grid_fuel fuel grid trie cfg = solve_grid grid trie cfg.
Proof.
  intros Hle. unfold solve_grid. rewrite <- !solve_grid_fuel_agree.
  rewrite (solve_grid_with_paths_fuel_enough fuel) by done. done.
Qed.

(** The limit at work: a path of three cells needs room for three nested
    calls. *)
Lemma deep_path_raises :
  solve_grid_fuel 2 [["c"; "a"; "t"]] (trie_of ["cat"]) default_config
  = RecursionError
  ∧ solve_grid_fuel 3 [["c"; "a"; "t"]] (trie_of ["cat"]) default_config
    = Ok {["cat"]}.
Proof. split; vm_compute; reflexivity. Qed.

(** * The claims about the grid search *)

Lemma demo_run :
  solve_grid demo_grid (trie_of demo_words) demo_config = Ok demo_found.
Proof. vm_compute. reflexivity. Qed.

Lemma demo_run_paths :
  solve_grid_with_paths demo_grid (trie_of demo_words) demo_config
  = Ok demo_paths.
Proof. vm_compute. reflexivity. Qed.

Lemma demo_rectangular : rectangular demo_grid.
Proof. repeat constructor. Qed.

Lemma demo_traces_cat :
  traces demo_grid true [(0, 0); (0, 1); (1, 0)] "cat".
Proof.
  split.
  - discriminate.
  - apply (bool_decide_unpack _). vm_compute. exact I.
  - unfold linked, adjacent. simpl. lia.
  - repeat constructor.
  - reflexivity.
Qed.

(** C1: every word of the set [solve_grid] returns is one of the inserted
    words, is at least [min_len] long, and is traced by a simple path of
    adjacent cells inside the grid whose tokens spell it. *)
Theorem solve_grid_sound (grid : list (list string)) (ws : list string)
    (cfg : SolveConfig) (out : gset string) (w : string) :
  solve_grid grid (trie_of ws) cfg = Ok out → w ∈ out →
  w ∈ ws
  ∧ min_len cfg ≤ Z.of_nat (String.length w)
  ∧ ∃ p, traces grid (allow_diagonal cfg) p w.
Proof.
  intros Hrun Hw. pose proof (solve_grid_Ok_covered _ _ _ _ _ Hrun) as Hcov.
  destruct (solve_grid_covered (enough_fuel grid) grid (trie_of ws) cfg Hcov)
    as (out' & Hrun' & Hout); [done|].
  unfold solve_grid in Hrun. rewrite Hrun in Hrun'. injection Hrun' as <-.
  apply Hout in Hw as [[Hlen Hword]%andb_true_iff Hp].
  split_and!; [by apply has_word_trie_of|lia|done].
Qed.

Lemma solve_grid_sound_witness :
  solve_grid demo_grid (trie_of demo_words) demo_config = Ok demo_found
  ∧ "cat" ∈ demo_found
  ∧ "cat" ∈ demo_words
  ∧ min_len demo_config ≤ Z.of_nat (String.length "cat")
  ∧ ∃ p, traces demo_grid (allow_diagonal demo_config) p "cat".
Proof.
  assert ("cat" ∈ demo_found) as Hin by (vm_compute; reflexivity).
  split; [exact demo_run|]. split; [exact Hin|].
  exact (solve_grid_sound demo_grid demo_words demo_config demo_found "cat"
           demo_run Hin).
Defined.

(** C2: on a rectangular grid, every inserted word that is at least
    [min_len] long and is traced by a simple path of adjacent cells is in the
    set [solve_grid] returns, whenever it returns one; and it returns one when
    the recursion limit leaves room for as many nested calls as the grid has
    cells (on a deeper grid the search may end in [RecursionError] and return
    no set). *)
Theorem solve_grid_complete (grid : list (list string)) (ws : list string)
    (cfg : SolveConfig) (w : string) (p : list Coord) :
  rectangular grid → w ∈ ws → min_len cfg ≤ Z.of_nat (String.length w) →
  traces grid (allow_diagonal cfg) p w →
  (∀ fuel out,
     solve_grid_fuel fuel grid (trie_of ws) cfg = Ok out → w ∈ out)
  ∧ (∀ fuel, (enough_fuel grid ≤ fuel)%nat →
       ∃ out, solve_grid_fuel fuel grid (trie_of ws) cfg = Ok out ∧ w ∈ out).
Proof.
  intros Hrect%rectangular_covered Hw Hlen Hp.
  destruct (solve_grid_covered (enough_fuel grid) grid (trie_of ws) cfg Hrect)
    as (out0 & Hrun0 & Hout); [done|].
  assert (w ∈ out0) as Hin.
  { apply Hout. split; [|by exists p].
    apply andb_true_iff. split; [lia|]. by apply has_word_trie_of. }
  split.
  - intros fuel out Hrun%solve_grid_fuel_Ok. unfold solve_grid in Hrun.
    rewrite Hrun0 in Hrun. by injection Hrun as <-.
  - intros fuel Hfuel. exists out0. split; [|done].
    rewrite solve_grid_fuel_enough by done. exact Hrun0.
Qed.

Lemma solve_grid_complete_witness :
  rectangular demo_grid ∧ "cat" ∈ demo_words
  ∧ min_len demo_config ≤ Z.of_nat (String.length "cat")
  ∧ traces demo_grid (allow_diagonal demo_config) [(0, 0); (0, 1); (1, 0)] "cat"
  ∧ (∀ fuel out,
       solve_grid_fuel fuel demo_grid (trie_of demo_words) demo_config = Ok out
       → "cat" ∈ out)
  ∧ (∀ fuel, (enough_fuel demo_grid ≤ fuel)%nat →
       ∃ out, solve_grid_fuel fuel demo_grid (trie_of demo_words) demo_config
              = Ok out ∧ "cat" ∈ out).
Proof.
  assert ("cat" ∈ demo_words) as Hin
    by (apply (bool_decide_unpack _); vm_compute; exact I).
  assert (min_len demo_config ≤ Z.of_nat (String.length "cat")) as Hlen
    by (simpl; lia).
  split; [exact demo_rectangular|]. split; [exact Hin|]. split; [exact Hlen|].
  split; [exact demo_traces_cat|].
  exact (solve_grid_complete demo_grid demo_words demo_config "cat"
           [(0, 0); (0, 1); (1, 0)] demo_rectangular Hin Hlen demo_traces_cat).
Defined.

(** C3: the set [solve_grid] returns is the set of keys of the dictionary
    [solve_grid_with_paths] returns; where one raises, so does the other. *)
Theorem solve_grid_keys_of_paths (grid : list (list string)) (trie : Trie)
    (cfg : SolveConfig) :
  solve_grid grid trie cfg = dom <$> solve_grid_with_paths grid trie cfg.
Proof.
  unfold solve_grid, solve_grid_with_paths. by rewrite solve_grid_fuel_agree.
Qed.

(** C6, as stated, fails on a token of two characters: the path of the word
    [qu] on the grid of the one cell [qu] has one coordinate. *)
Lemma two_letter_token_path :
  solve_grid_with_paths [["qu"]] (trie_of ["qu"]) (mkSolveConfig 1 true)
  = Ok {["qu" := [(0, 0)]]}
  ∧ ({["qu" := [(0, 0)]]} : gmap string (list Coord)) !! "qu" = Some [(0, 0)]
  ∧ length [(0, 0)] ≠ String.length "qu".
Proof. split_and!; [by vm_compute|by vm_compute|simpl; lia]. Qed.

(** C6, amended: for every entry of the dictionary [solve_grid_with_paths]
    returns, consecutive coordinates of the path are adjacent, no coordinate
    occurs twice, every coordinate is inside the grid, and the tokens at the
    coordinates spell the word; the path is as long as the word when every
    token of the grid is one character. *)
Theorem paths_valid (grid : list (list string)) (trie : Trie)
    (cfg : SolveConfig) (paths : gmap string (list Coord)) (w : string)
    (p : list Coord) :
  solve_grid_with_paths grid trie cfg = Ok paths → paths !! w = Some p →
  linked (allow_diagonal cfg) p
  ∧ NoDup p
  ∧ Forall (inside grid) p
  ∧ spell (tokens grid) p = Ok w
  ∧ (single_letters grid → length p = String.length w).
Proof.
  intros Hrun Hp.
  assert (covered grid) as Hcov.
  { apply (solve_grid_Ok_covered (enough_fuel grid) grid trie cfg (dom paths)).
    rewrite <- solve_grid_fuel_agree. unfold solve_grid_with_paths in Hrun.
    by rewrite Hrun. }
  destruct (solve_grid_with_paths_covered (enough_fuel grid) grid trie cfg Hcov)
    as (paths' & Hrun' & Hsound & _); [done|].
  unfold solve_grid_with_paths in Hrun. rewrite Hrun in Hrun'.
  injection Hrun' as <-. destruct (Hsound w p Hp) as [[_ Hnd Hlink Hin Hsp] _].
  split_and!; try done. intros Hone.
  destruct (spell_length grid p w Hsp) as [Hlen _]. by rewrite Hlen.
Qed.

Lemma paths_valid_witness :
  solve_grid_with_paths demo_grid (trie_of demo_words) demo_config
  = Ok demo_paths
  ∧ demo_paths !! "cat" = Some [(0, 0); (0, 1); (1, 0)]
  ∧ linked (allow_diagonal demo_config) [(0, 0); (0, 1); (1, 0)]
  ∧ NoDup [(0, 0); (0, 1); (1, 0)]
  ∧ Forall (inside demo_grid) [(0, 0); (0, 1); (1, 0)]
  ∧ spell (tokens demo_grid) [(0, 0); (0, 1); (1, 0)] = Ok "cat"
  ∧ (single_letters demo_grid
     → length [(0, 0); (0, 1); (1, 0)] = String.length "cat").
Proof.
  assert (demo_paths !! "cat" = Some [(0, 0); (0, 1); (1, 0)]) as Hp
    by (vm_compute; reflexivity).
  split; [exact demo_run_paths|]. split; [exact Hp|].
  exact (paths_valid demo_grid (trie_of demo_words) demo_config demo_paths
           "cat" [(0, 0); (0, 1); (1, 0)] demo_run_paths Hp).
Defined.

(** C7: a set [solve_grid] returns with diagonal adjacency disabled is a
    subset of every set it returns with diagonal adjacency enabled, for the
    same grid, trie and minimum length; and with diagonals it does return one
    when the recursion limit leaves room for as many nested calls as the grid
    has cells (paths with diagonals can be deeper than paths without, so
    under a smaller limit the second run may end in [RecursionError]). *)
Theorem diagonal_monotone (grid : list (list string)) (trie : Trie)
    (n : Z) (fuel4 : nat) (out4 : gset string) :
  solve_grid_fuel fuel4 grid trie (mkSolveConfig n false) = Ok out4 →
  (∀ fuel8 out8,
     solve_grid_fuel fuel8 grid trie (mkSolveConfig n true) = Ok out8 →
     out4 ⊆ out8)
  ∧ (∀ fuel8, (enough_fuel grid ≤ fuel8)%nat →
       ∃ out8, solve_grid_fuel fuel8 grid trie (mkSolveConfig n true) = Ok out8
               ∧ out4 ⊆ out8).
Proof.
  intros Hrun%solve_grid_fuel_Ok.
  pose proof (solve_grid_Ok_covered _ _ _ _ _ Hrun) as Hcov.
  destruct (solve_grid_covered (enough_fuel grid) grid trie
              (mkSolveConfig n false) Hcov) as (o4 & Hrun4 & Hout4); [done|].
  destruct (solve_grid_covered (enough_fuel grid) grid trie
              (mkSolveConfig n true) Hcov) as (o8 & Hrun8 & Hout8); [done|].
  unfold solve_grid in Hrun. rewrite Hrun in Hrun4. injection Hrun4 as <-.
  assert (out4 ⊆ o8) as Hsub.
  { intros w [Hacc [p Hp]]%Hout4. apply Hout8. split; [done|].
    exists p. by apply traces_mono. }
  split.
  - intros fuel8 out8 Hrun'%solve_grid_fuel_Ok. unfold solve_grid in Hrun'.
    rewrite Hrun8 in Hrun'. by injection Hrun' as <-.
  - intros fuel8 Hfuel. exists o8. split; [|done].
    rewrite solve_grid_fuel_enough by done. exact Hrun8.
Qed.

Lemma diagonal_monotone_witness :
  solve_grid_fuel 4 demo_grid (trie_of demo_words) (mkSolveConfig 2 false)
  = Ok {["ca"]}
  ∧ (∀ fuel8 out8,
       solve_grid_fuel fuel8 demo_grid (trie_of demo_words)
         (mkSolveConfig 2 true) = Ok out8 → {["ca"]} ⊆ out8)
  ∧ (∀ fuel8, (enough_fuel demo_grid ≤ fuel8)%nat →
       ∃ out8, solve_grid_fuel fuel8 demo_grid (trie_of demo_words)
                 (mkSolveConfig 2 true) = Ok out8 ∧ {["ca"]} ⊆ out8).
Proof.
  assert (solve_grid_fuel 4 demo_grid (trie_of demo_words)
            (mkSolveConfig 2 false) = Ok {["ca"]}) as Hrun
    by (vm_compute; reflexivity).
  split; [exact Hrun|].
  exact (diagonal_monotone demo_grid (trie_of demo_words) 2 4 {["ca"]} Hrun).
Defined.

(** C9, as stated, fails on a token of three characters: the grid of the one
    cell [cat] has one cell, and the search with [min_len = 3] finds [cat]. *)
Lemma long_token_found :
  Z.of_nat (grid_rows [["cat"]] * grid_cols [["cat"]]) < 3
  ∧ solve_grid [["cat"]] (trie_of ["cat"]) (mkSolveConfig 3 true)
    = Ok {["cat"]}
  ∧ ({["cat"]} : gset string) ≠ ∅.
Proof.
  split_and!; [simpl; lia|by vm_compute|].
  apply (bool_decide_unpack _). vm_compute. exact I.
Qed.

(** C9, amended: when no token of the grid has more than one character and
    [min_len] is greater than the number of cells (rows times columns), every
    set [solve_grid] returns is empty; and on a rectangular grid it returns
    the empty set when the recursion limit leaves room for as many nested
    calls as the grid has cells. *)
Theorem small_grid_no_word (grid : list (list string)) (trie : Trie)
    (cfg : SolveConfig) :
  short_tokens grid →
  Z.of_nat (grid_rows grid * grid_cols grid) < min_len cfg →
  (∀ fuel out, solve_grid_fuel fuel grid trie cfg = Ok out → out = ∅)
  ∧ (rectangular grid →
     ∀ fuel, (enough_fuel grid ≤ fuel)%nat →
       solve_grid_fuel fuel grid trie cfg = Ok ∅).
Proof.
  intros Hshort Hmin.
  assert (∀ out, solve_grid grid trie cfg = Ok out → out = ∅) as Hempty.
  { intros out Hrun.
    pose proof (solve_grid_Ok_covered _ _ _ _ _ Hrun) as Hcov.
    destruct (solve_grid_covered (enough_fuel grid) grid trie cfg Hcov)
      as (out' & Hrun' & Hout); [done|].
    unfold solve_grid in Hrun. rewrite Hrun in Hrun'. injection Hrun' as <-.
    apply leibniz_equiv. intros w. split; [|by intros ?%elem_of_empty].
    intros [[Hlen _]%andb_true_iff [p Hp]]%Hout. exfalso.
    pose proof (traces_length _ _ _ _ Hp).
    destruct (spell_length grid p w (traces_spell _ _ _ _ Hp)) as [_ Hle].
    specialize (Hle Hshort). lia. }
  split.
  - intros fuel out Hrun%solve_grid_fuel_Ok. by apply Hempty.
  - intros Hrect%rectangular_covered fuel Hfuel.
    destruct (solve_grid_covered (enough_fuel grid) grid trie cfg Hrect)
      as (out & Hrun & _); [done|].
    rewrite solve_grid_fuel_enough by done. unfold solve_grid.
    rewrite Hrun. f_equal. by apply Hempty.
Qed.

Lemma small_grid_no_word_witness :
  short_tokens demo_grid
  ∧ Z.of_nat (grid_rows demo_grid * grid_cols demo_grid) < 5
  ∧ (∀ fuel out,
       solve_grid_fuel fuel demo_grid (trie_of demo_words)
         (mkSolveConfig 5 true) = Ok out → out = ∅)
  ∧ (rectangular demo_grid →
     ∀ fuel, (enough_fuel demo_grid ≤ fuel)%nat →
       solve_grid_fuel fuel demo_grid (trie_of demo_words)
         (mkSolveConfig 5 true) = Ok ∅).
Proof.
  assert (short_tokens demo_grid) as Hshort
    by (repeat constructor; simpl; lia).
  assert (Z.of_nat (grid_rows demo_grid * grid_cols demo_grid) < 5) as Hmin
    by (simpl; lia).
  split; [exact Hshort|]. split; [exact Hmin|].
  exact (small_grid_no_word demo_grid (trie_of demo_words)
           (mkSolveConfig 5 true) Hshort Hmin).
Defined.

(** C10: the recursion of [dfs] is never deeper than the number of cells.  On
    a rectangular grid both entry points return when the recursion limit
    leaves room for [rows * cols] nested calls, with results that do not
    depend on the limit; under a smaller limit each of them still ends, with
    the same result or with [RecursionError]. *)
Theorem search_terminates (grid : list (list string)) (trie : Trie)
    (cfg : SolveConfig) :
  rectangular grid →
  ∃ out paths,
    (∀ fuel, (enough_fuel grid ≤ fuel)%nat →
       solve_grid_fuel fuel grid trie cfg = Ok out
       ∧ solve_grid_with_paths_fuel fuel grid trie cfg = Ok paths)
    ∧ (∀ fuel,
         (solve_grid_fuel fuel grid trie cfg = Ok out
          ∨ solve_grid_fuel fuel grid trie cfg = RecursionError)
         ∧ (solve_grid_with_paths_fuel fuel grid trie cfg = Ok paths
            ∨ solve_grid_with_paths_fuel fuel grid trie cfg = RecursionError)).
Proof.
  intros Hrect%rectangular_covered.
  destruct (solve_grid_with_paths_covered (enough_fuel grid) grid trie cfg Hrect)
    as (paths & Hrun & _); [done|].
  assert (solve_grid grid trie cfg = Ok (dom paths)) as Hset.
  { unfold solve_grid. rewrite <- solve_grid_fuel_agree. by rewrite Hrun. }
  exists (dom paths), paths. split.
  - intros fuel Hfuel.
    by rewrite solve_grid_fuel_enough, solve_grid_with_paths_fuel_enough.
  - intros fuel. split.
    + destruct (solve_grid_fuel fuel grid trie cfg) as [o| |] eqn:E;
        [left|exfalso|by right].
      * apply solve_grid_fuel_settled in E; [congruence|done].
      * apply solve_grid_fuel_settled in E; [congruence|done].
    + destruct (solve_grid_with_paths_fuel fuel grid trie cfg) as [o| |] eqn:E;
        [left|exfalso|by right].
      * apply solve_grid_with_paths_fuel_settled in E; [|done].
        unfold solve_grid_with_paths in E. congruence.
      * apply solve_grid_with_paths_fuel_settled in E; [|done].
        unfold solve_grid_with_paths in E. congruence.
Qed.

Lemma search_terminates_witness :
  rectangular demo_grid
  ∧ ∃ out paths,
      (∀ fuel, (enough_fuel demo_grid ≤ fuel)%nat →
         solve_grid_fuel fuel demo_grid (trie_of demo_words) demo_config
         = Ok out
         ∧ solve_grid_with_paths_fuel fuel demo_grid (trie_of demo_words)
             demo_config = Ok paths)
      ∧ (∀ fuel,
           (solve_grid_fuel fuel demo_grid (trie_of demo_words) demo_config
            = Ok out
            ∨ solve_grid_fuel fuel demo_grid (trie_of demo_words) demo_config
              = RecursionError)
           ∧ (solve_grid_with_paths_fuel fuel demo_grid (trie_of demo_words)
                demo_config = Ok paths
              ∨ solve_grid_with_paths_fuel fuel demo_grid
                  (trie_of demo_words) demo_config = RecursionError)).
Proof.
  split; [exact demo_rectangular|].
  exact (search_terminates demo_grid (trie_of demo_words) demo_config
           demo_rectangular).
Defined.

(** * Further properties of the prefix dictionary *)

Lemma insert_from_commute (node : TrieNode) (a b : string) :
  insert_from (insert_from node a) b = insert_from (insert_from node b) a.
Proof.
  revert node b. induction a as [|x a IH]; intros node b.
  - destruct b as [|y b]; [done|]. reflexivity.
  - destruct b as [|y b]; [reflexivity|].
    cbn [insert_from children is_word]. f_equal.
    destruct (decide (x = y)) as [->|Hxy].
    + rewrite !lookup_insert_eq. cbn [default from_option id].
      rewrite !insert_insert_eq. f_equal. apply IH.
    + rewrite !lookup_insert_ne by done.
      by apply insert_insert_ne.
Qed.

(** X1: a word inserted into any trie is found by [has_word], and the answer
    for every other sequence stays what it was. *)
Theorem has_word_insert (t : Trie) (w q : string) :
  has_word (insert t w) q = true ↔ q = w ∨ has_word t q = true.
Proof.
  unfold has_word, insert. simpl. rewrite has_word_insert_from.
  case_decide; naive_solver.
Qed.

(** X2: after an insertion into any trie, [has_prefix] is true of the
    sequences it was true of before and of the prefixes of the new word, and
    of no other. *)
Theorem has_prefix_insert (t : Trie) (w q : string) :
  has_prefix (insert t w) q = true
  ↔ has_prefix t q = true ∨ prefix_of q w.
Proof. apply has_prefix_insert_from. Qed.

(** X3: two insertions in either order leave the same trie. *)
Theorem insert_commute (t : Trie) (a b : string) :
  insert (insert t a) b = insert (insert t b) a.
Proof. unfold insert. simpl. by rewrite insert_from_commute. Qed.

(** X4: the tries built from two lists with the same words in another order
    are the same trie. *)
Theorem trie_of_permutation (ws ws' : list string) :
  ws ≡ₚ ws' → trie_of ws = trie_of ws'.
Proof.
  unfold trie_of. generalize new_trie.
  intros t Hperm. revert t.
  induction Hperm as [|w ws ws' _ IH|a b ws|ws1 ws2 ws3 _ IH1 _ IH2];
    intros t; simpl.
  - done.
  - apply IH.
  - by rewrite insert_commute.
  - by rewrite IH1.
Qed.

Lemma trie_of_permutation_witness :
  ["cat"; "ca"; "dog"] ≡ₚ ["dog"; "cat"; "ca"]
  ∧ trie_of ["cat"; "ca"; "dog"] = trie_of ["dog"; "cat"; "ca"].
Proof.
  assert (["cat"; "ca"; "dog"] ≡ₚ ["dog"; "cat"; "ca"]) as Hperm.
  { apply (bool_decide_unpack _). vm_compute. exact I. }
  split; [exact Hperm|].
  exact (trie_of_permutation ["cat"; "ca"; "dog"] ["dog"; "cat"; "ca"] Hperm).
Defined.

(** X5: on any trie, whatever its nodes, the sequences [has_prefix] accepts
    are closed under taking a prefix. *)
Theorem has_prefix_closed (t : Trie) (u w : string) :
  has_prefix t w = true → prefix_of u w → has_prefix t u = true.
Proof.
  unfold has_prefix. generalize (root t) as node. clear t.
  revert w. induction u as [|a u IH]; intros w node Hw Hp; [done|].
  destruct w as [|b w]; [by apply Str.prefix_of_nil_inv in Hp|].
  apply Str.prefix_of_cons in Hp as [-> Hp]. simpl in *.
  destruct (children node !! b); [eauto|done].
Qed.

Lemma has_prefix_closed_witness :
  has_prefix (trie_of demo_words) "cats" = true ∧ prefix_of "ca" "cats"
  ∧ has_prefix (trie_of demo_words) "ca" = true.
Proof.
  assert (has_prefix (trie_of demo_words) "cats" = true) as Hw
    by (vm_compute; reflexivity).
  assert (prefix_of "ca" "cats") as Hp by (exists "ts"; reflexivity).
  split; [exact Hw|]. split; [exact Hp|].
  exact (has_prefix_closed (trie_of demo_words) "ca" "cats" Hw Hp).
Defined.

(** X6: on any trie, a word [has_word] accepts passes [has_prefix], and so
    does each of its prefixes: the pruning test never rejects the start of a
    word of the dictionary. *)
Theorem has_word_prefixes (t : Trie) (u w : string) :
  has_word t w = true → prefix_of u w →
  has_prefix t u = true ∧ has_prefix t w = true.
Proof.
  intros Hw Hp. split.
  - by eapply has_word_has_prefix.
  - eapply has_word_has_prefix; [done|]. exists "". by rewrite Str.app_nil_r.
Qed.

Lemma has_word_prefixes_witness :
  has_word (trie_of demo_words) "cats" = true ∧ prefix_of "c" "cats"
  ∧ has_prefix (trie_of demo_words) "c" = true
  ∧ has_prefix (trie_of demo_words) "cats" = true.
Proof.
  assert (has_word (trie_of demo_words) "cats" = true) as Hw
    by (vm_compute; reflexivity).
  assert (prefix_of "c" "cats") as Hp by (exists "ats"; reflexivity).
  split; [exact Hw|]. split; [exact Hp|].
  exact (has_word_prefixes (trie_of demo_words) "c" "cats" Hw Hp).
Defined.

(** * Further properties of the grid search *)

(** X7: [_neighbors] yields only cells inside the bounds, never the cell
    itself, each one step away along a row or a column or, with diagonals,
    along both; it yields no cell twice, and at most four cells without
    diagonals and eight with. *)
Theorem neighbors_sound (r c rows cols : Z) (diag : bool) :
  Forall (λ rc, in_grid rows cols rc = true ∧ rc ≠ (r, c)
                ∧ adjacent diag (r, c) rc)
         (neighbors r c rows cols diag)
  ∧ NoDup (neighbors r c rows cols diag)
  ∧ (length (neighbors r c rows cols diag) ≤ if diag then 8 else 4)%nat.
Proof.
  split_and!.
  - apply Forall_forall. intros rc [Hadj Hin]%elem_of_neighbors.
    split_and!; [done| |done]. intros ->. unfold adjacent in Hadj.
    simpl in Hadj. lia.
  - unfold neighbors. apply NoDup_filter. apply NoDup_fmap_2_strong.
    + intros [dr1 dc1] [dr2 dc2] _ _ [= H1 H2]. f_equal; lia.
    + destruct diag; apply (bool_decide_unpack _); vm_compute; exact I.
  - unfold neighbors. etrans; [apply length_filter|].
    rewrite length_fmap. by destruct diag.
Qed.

(** X8: inside the grid, [_neighbors] is symmetric: a cell is yielded for
    another exactly when the other is yielded for it. *)
Theorem neighbors_symmetric (a b : Coord) (rows cols : Z) (diag : bool) :
  in_grid rows cols a = true → in_grid rows cols b = true →
  (b ∈ neighbors a.1 a.2 rows cols diag
   ↔ a ∈ neighbors b.1 b.2 rows cols diag).
Proof.
  intros Ha Hb. destruct a as [r c], b as [r' c']. simpl.
  rewrite !elem_of_neighbors. unfold adjacent. simpl.
  split; intros [[H|(Hd & H1 & H2)] _]; (split; [|done]);
    (left; lia) || (right; split; [done|lia]).
Qed.

Lemma neighbors_symmetric_witness :
  in_grid 2 2 (0, 1) = true ∧ in_grid 2 2 (1, 0) = true
  ∧ ((1, 0) ∈ neighbors 0 1 2 2 true ↔ (0, 1) ∈ neighbors 1 0 2 2 true).
Proof.
  split; [reflexivity|]. split; [reflexivity|].
  exact (neighbors_symmetric (0, 1) (1, 0) 2 2 true eq_refl eq_refl).
Defined.

(** X9: a cell with a full ring around it has all four neighbours without
    diagonals and all eight with. *)
Theorem neighbors_interior (r c rows cols : Z) (diag : bool) :
  0 < r < rows - 1 → 0 < c < cols - 1 →
  length (neighbors r c rows cols diag) = if diag then 8%nat else 4%nat.
Proof.
  intros Hr Hc. unfold neighbors.
  assert (∀ l : list (Z * Z),
    Forall (λ d, -1 ≤ d.1 ≤ 1 ∧ -1 ≤ d.2 ≤ 1) l →
    filter (λ rc, in_grid rows cols rc)
      (map (λ d : Z * Z, (r + d.1, c + d.2)) l)
    = map (λ d : Z * Z, (r + d.1, c + d.2)) l) as Hall.
  { induction l as [|d l IH]; intros Hl; [done|].
    apply Forall_cons in Hl as [Hd Hl]. simpl.
    rewrite filter_cons_True; [f_equal; by apply IH|].
    apply Is_true_true, in_grid_spec. simpl. lia. }
  rewrite Hall.
  - rewrite length_map. by destruct diag.
  - destruct diag; repeat constructor; simpl; lia.
Qed.

Lemma neighbors_interior_witness :
  0 < 1 < 3 - 1 ∧ 0 < 1 < 3 - 1
  ∧ length (neighbors 1 1 3 3 true) = 8%nat.
Proof.
  assert (0 < 1 < 3 - 1) as H by lia.
  split; [exact H|]. split; [exact H|].
  exact (neighbors_interior 1 1 3 3 true H H).
Defined.

(** ** A grid with a short row, continued *)

Lemma short_row_raises_both (grid : list (list string)) (trie : Trie)
    (cfg : SolveConfig) :
  Exists (λ row, (length row < grid_cols grid)%nat) grid →
  solve_grid grid trie cfg = IndexError
  ∧ solve_grid_with_paths grid trie cfg = IndexError.
Proof.
  intros Hshort.
  assert (¬ covered grid) as Hcov.
  { intros Hcov. apply Exists_exists in Hshort as (row & Hrow & Hlt).
    eapply Forall_forall in Hcov; [|exact Hrow]. simpl in Hcov. lia. }
  assert (solve_grid_with_paths grid trie cfg = IndexError) as Hpaths.
  { unfold solve_grid_with_paths.
    destruct (solve_grid_with_paths_fuel _ grid trie cfg) as [paths| |] eqn:E.
    - destruct Hcov.
      apply (solve_grid_Ok_covered (enough_fuel grid) grid trie cfg (dom paths)).
      rewrite <- solve_grid_fuel_agree. by rewrite E.
    - done.
    - by apply solve_grid_with_paths_settles in E. }
  split; [|done]. unfold solve_grid, solve_grid_with_paths in *.
  rewrite <- solve_grid_fuel_agree. by rewrite Hpaths.
Qed.

(** X10: on a grid with a row shorter than the first, neither entry point
    ever returns a result, whatever the dictionary, the configuration and the
    recursion limit; and both raise [IndexError] when the limit leaves room
    for as many nested calls as the grid has cells (under a smaller limit the
    search may end in [RecursionError] before it reads the missing cell). *)
Theorem short_row_raises (grid : list (list string)) (trie : Trie)
    (cfg : SolveConfig) :
  Exists (λ row, (length row < grid_cols grid)%nat) grid →
  (∀ fuel,
     (∀ out, solve_grid_fuel fuel grid trie cfg ≠ Ok out)
     ∧ (∀ paths, solve_grid_with_paths_fuel fuel grid trie cfg ≠ Ok paths))
  ∧ (∀ fuel, (enough_fuel grid ≤ fuel)%nat →
       solve_grid_fuel fuel grid trie cfg = IndexError
       ∧ solve_grid_with_paths_fuel fuel grid trie cfg = IndexError).
Proof.
  intros [Hset Hpaths]%(short_row_raises_both grid trie cfg). split.
  - intros fuel. split.
    + intros out Hrun%solve_grid_fuel_Ok. congruence.
    + intros paths Hrun%solve_grid_with_paths_fuel_Ok. congruence.
  - intros fuel Hfuel.
    by rewrite solve_grid_fuel_enough, solve_grid_with_paths_fuel_enough.
Qed.

Lemma short_row_raises_witness :
  Exists (λ row, (length row < grid_cols [["c"; "a"]; ["t"]])%nat)
         [["c"; "a"]; ["t"]]
  ∧ (∀ fuel,
       (∀ out, solve_grid_fuel fuel [["c"; "a"]; ["t"]] (trie_of demo_words)
                 demo_config ≠ Ok out)
       ∧ (∀ paths, solve_grid_with_paths_fuel fuel [["c"; "a"]; ["t"]]
                     (trie_of demo_words) demo_config ≠ Ok paths))
  ∧ (∀ fuel, (enough_fuel [["c"; "a"]; ["t"]] ≤ fuel)%nat →
       solve_grid_fuel fuel [["c"; "a"]; ["t"]] (trie_of demo_words)
         demo_config = IndexError
       ∧ solve_grid_with_paths_fuel fuel [["c"; "a"]; ["t"]]
           (trie_of demo_words) demo_config = IndexError).
Proof.
  assert (Exists (λ row, (length row < grid_cols [["c"; "a"]; ["t"]])%nat)
            [["c"; "a"]; ["t"]]) as Hshort.
  { apply Exists_cons_tl, Exists_cons_hd. unfold grid_cols. simpl. lia. }
  split; [exact Hshort|].
  exact (short_row_raises [["c"; "a"]; ["t"]] (trie_of demo_words) demo_config
           Hshort).
Defined.

(** X11: a larger dictionary never finds less: a set [solve_grid] returns
    with one trie is a subset of every set it returns, on the same grid and
    configuration, with a trie whose [has_word] accepts at least the same
    words; and with that trie it returns one when the recursion limit leaves
    room for as many nested calls as the grid has cells (a larger dictionary
    can make the search deeper). *)
Theorem dictionary_monotone (grid : list (list string)) (t t' : Trie)
    (cfg : SolveConfig) (fuel : nat) (out : gset string) :
  (∀ w, has_word t w = true → has_word t' w = true) →
  solve_grid_fuel fuel grid t cfg = Ok out →
  (∀ fuel' out', solve_grid_fuel fuel' grid t' cfg = Ok out' → out ⊆ out')
  ∧ (∀ fuel', (enough_fuel grid ≤ fuel')%nat →
       ∃ out', solve_grid_fuel fuel' grid t' cfg = Ok out' ∧ out ⊆ out').
Proof.
  intros Hsub Hrun%solve_grid_fuel_Ok.
  pose proof (solve_grid_Ok_covered _ _ _ _ _ Hrun) as Hcov.
  destruct (solve_grid_covered (enough_fuel grid) grid t cfg Hcov)
    as (o & Hrun1 & Hout); [done|].
  destruct (solve_grid_covered (enough_fuel grid) grid t' cfg Hcov)
    as (o' & Hrun2 & Hout'); [done|].
  unfold solve_grid in Hrun. rewrite Hrun in Hrun1. injection Hrun1 as <-.
  assert (out ⊆ o') as Hincl.
  { intros w [[Hlen Hw]%andb_true_iff Hp]%Hout. apply Hout'. split; [|done].
    apply andb_true_iff. auto. }
  split.
  - intros fuel' out' Hrun'%solve_grid_fuel_Ok. unfold solve_grid in Hrun'.
    rewrite Hrun2 in Hrun'. by injection Hrun' as <-.
  - intros fuel' Hfuel. exists o'. split; [|done].
    rewrite solve_grid_fuel_enough by done. exact Hrun2.
Qed.

Lemma dictionary_monotone_witness :
  (∀ w, has_word (trie_of ["ca"]) w = true
        → has_word (insert (trie_of ["ca"]) "cat") w = true)
  ∧ solve_grid_fuel 4 demo_grid (trie_of ["ca"]) demo_config = Ok {["ca"]}
  ∧ (∀ fuel' out',
       solve_grid_fuel fuel' demo_grid (insert (trie_of ["ca"]) "cat")
         demo_config = Ok out' → {["ca"]} ⊆ out')
  ∧ (∀ fuel', (enough_fuel demo_grid ≤ fuel')%nat →
       ∃ out', solve_grid_fuel fuel' demo_grid (insert (trie_of ["ca"]) "cat")
                 demo_config = Ok out' ∧ {["ca"]} ⊆ out').
Proof.
  assert (∀ w, has_word (trie_of ["ca"]) w = true
               → has_word (insert (trie_of ["ca"]) "cat") w = true) as Hsub.
  { intros w Hw. unfold has_word, insert in *. cbn [root].
    rewrite has_word_insert_from. by case_decide. }
  assert (solve_grid_fuel 4 demo_grid (trie_of ["ca"]) demo_config
          = Ok {["ca"]}) as Hrun by (vm_compute; reflexivity).
  split; [exact Hsub|]. split; [exact Hrun|].
  exact (dictionary_monotone demo_grid (trie_of ["ca"])
           (insert (trie_of ["ca"]) "cat") demo_config 4 {["ca"]} Hsub Hrun).
Defined.

(** X12: raising [min_len] filters the result: when the search returns with
    [min_len = n], it returns with any [n' ≥ n], and its set is then the
    words of the first set that are at least [n'] long. *)
Theorem min_len_filters (grid : list (list string)) (trie : Trie)
    (n n' : Z) (diag : bool) (out : gset string) :
  n ≤ n' →
  solve_grid grid trie (mkSolveConfig n diag) = Ok out →
  ∃ out', solve_grid grid trie (mkSolveConfig n' diag) = Ok out'
    ∧ ∀ w, w ∈ out' ↔ w ∈ out ∧ n' ≤ Z.of_nat (String.length w).
Proof.
  intros Hle Hrun. pose proof (solve_grid_Ok_covered _ _ _ _ _ Hrun) as Hcov.
  destruct (solve_grid_covered (enough_fuel grid) grid trie
              (mkSolveConfig n diag) Hcov) as (o & Hrun1 & Hout); [done|].
  destruct (solve_grid_covered (enough_fuel grid) grid trie
              (mkSolveConfig n' diag) Hcov) as (out' & Hrun2 & Hout'); [done|].
  unfold solve_grid in Hrun. rewrite Hrun in Hrun1. injection Hrun1 as <-.
  exists out'. split; [done|]. intros w. rewrite Hout, Hout'.
  unfold accepts. simpl. rewrite !andb_true_iff, !Z.leb_le. naive_solver lia.
Qed.

Lemma min_len_filters_witness :
  2 ≤ 3
  ∧ solve_grid demo_grid (trie_of demo_words) (mkSolveConfig 2 true)
    = Ok demo_found
  ∧ ∃ out', solve_grid demo_grid (trie_of demo_words) (mkSolveConfig 3 true)
            = Ok out'
      ∧ ∀ w, w ∈ out' ↔ w ∈ demo_found ∧ 3 ≤ Z.of_nat (String.length w).
Proof.
  assert (2 ≤ 3) as Hle by lia.
  split; [exact Hle|]. split; [exact demo_run|].
  exact (min_len_filters demo_grid (trie_of demo_words) 2 3 true demo_found
           Hle demo_run).
Defined.

(** ** What a call of [dfs] leaves behind *)

Lemma demo_tokens_whole (rc : Coord) :
  in_grid 2 2 rc = true → is_Some (cell_at (tokens demo_grid) rc).
Proof.
  apply (covered_tokens_whole demo_grid).
  apply rectangular_covered, demo_rectangular.
Qed.

Lemma dfs_paths_returns_restored (g : list (list string)) (rows cols : Z)
    (trie : Trie) (cfg : SolveConfig) (fuel : nat) (r c : Z) (cur : string)
    (vis vis' : list (list bool)) (path path' : list Coord)
    (paths paths' : gmap string (list Coord)) :
  (∀ rc, in_grid rows cols rc = true → is_Some (cell_at g rc)) →
  whole rows cols vis → in_grid rows cols (r, c) = true → free vis (r, c) →
  dfs_paths g rows cols trie cfg fuel r c cur (vis, path, paths)
  = Ok (vis', path', paths') →
  vis' = vis ∧ path' = path ∧ paths ⊆ paths'.
Proof.
  intros Hg Hwhole Hok Hfree Hrun.
  set (F := (fuel `max` length (free_cells rows cols vis))%nat).
  apply (dfs_paths_stable g rows cols trie cfg fuel F) in Hrun; [|lia|done].
  destruct (dfs_paths_explores_all g rows cols trie cfg Hg F r c cur vis
              path paths) as (paths'' & Hrun' & [Hincl _ _]); [done..|lia|].
  rewrite Hrun' in Hrun. by injection Hrun as <- <- <-.
Qed.



(** X14: backtracking in set mode.  Under the same conditions, whenever a
    call of the [dfs] of [solve_grid] returns, it has left [visited] exactly
    as it found it and has only added words to [out]; it does return when the
    recursion limit leaves room for as many nested calls as there are cells
    not on the path; a call that ends in [RecursionError] restores
    nothing. *)
Theorem dfs_restores (g : list (list string)) (rows cols : Z)
    (trie : Trie) (cfg : SolveConfig) (r c : Z) (cur : string)
    (vis : list (list bool)) (out : gset string) :
  (∀ rc, in_grid rows cols rc = true → is_Some (cell_at g rc)) →
  whole rows cols vis → in_grid rows cols (r, c) = true → free vis (r, c) →
  (∀ fuel vis' out',
     dfs g rows cols trie cfg fuel r c cur (vis, out) = Ok (vis', out') →
     vis' = vis ∧ out ⊆ out')
  ∧ (∀ fuel, (length (free_cells rows cols vis) ≤ fuel)%nat →
       ∃ out', dfs g rows cols trie cfg fuel r c cur (vis, out)
               = Ok (vis, out')).
Proof.
  intros Hg Hwhole Hok Hfree.
  set (paths := gset_to_gmap ([] : list Coord) out).
  assert (dom paths = out) as Hdom by apply dom_gset_to_gmap.
  split.
  - intros fuel vis' out' Hrun.
    pose proof (dfs_agree_all g rows cols trie cfg fuel r c cur vis [] paths)
      as Hagree.
    rewrite Hdom, Hrun in Hagree.
    destruct (dfs_paths _ _ _ _ _ _ _ _ _ _)
      as [[[vis1 path1] paths1]| |] eqn:Hpaths; try done.
    destruct Hagree as (-> & -> & <-).
    destruct (dfs_paths_returns_restored _ _ _ _ _ _ _ _ _ _ _ _ _ _ _
                Hg Hwhole Hok Hfree Hpaths) as (-> & _ & Hincl).
    split; [done|]. rewrite <- Hdom. by apply subseteq_dom.
  - intros fuel Hfuel.
    destruct (dfs_paths_explores_all g rows cols trie cfg Hg fuel r c cur vis
                [] paths) as (paths' & Hrun & _); [done..|].
    pose proof (dfs_agree_all g rows cols trie cfg fuel r c cur vis [] paths)
      as Hagree.
    rewrite Hrun, Hdom in Hagree.
    destruct (dfs _ _ _ _ _ _ _ _ _ _) as [[vis2 out']| |]; try done.
    destruct Hagree as (<- & _ & <-). by exists (dom paths').
Qed.

Lemma dfs_restores_witness :
  (∀ rc, in_grid 2 2 rc = true → is_Some (cell_at (tokens demo_grid) rc))
  ∧ whole 2 2 (fresh_visited 2 2)
  ∧ in_grid 2 2 (0, 0) = true
  ∧ free (fresh_visited 2 2) (0, 0)
  ∧ (∀ fuel vis' out',
       dfs (tokens demo_grid) 2 2 (trie_of demo_words) demo_config fuel
         0 0 "" (fresh_visited 2 2, {["at"]}) = Ok (vis', out') →
       vis' = fresh_visited 2 2 ∧ {["at"]} ⊆ out')
  ∧ (∀ fuel, (length (free_cells 2 2 (fresh_visited 2 2)) ≤ fuel)%nat →
       ∃ out',
         dfs (tokens demo_grid) 2 2 (trie_of demo_words) demo_config fuel
           0 0 "" (fresh_visited 2 2, {["at"]})
         = Ok (fresh_visited 2 2, out')).
Proof.
  assert (whole 2 2 (fresh_visited 2 2)) as Hwhole
    by exact (fresh_visited_whole demo_grid).
  assert (free (fresh_visited 2 2) (0, 0)) as Hfree by reflexivity.
  split; [exact demo_tokens_whole|]. split; [exact Hwhole|].
  split; [reflexivity|]. split; [exact Hfree|].
  exact (dfs_restores (tokens demo_grid) 2 2 (trie_of demo_words)
           demo_config 0 0 "" (fresh_visited 2 2) {["at"]}
           demo_tokens_whole Hwhole eq_refl Hfree).
Defined.

(** * The command-line program *)

(** X15: the score is between 0 and 11 and never decreases with the length
    of the word. *)
Theorem wordhunt_score_monotone (w w' : string) :
  (String.length w ≤ String.length w')%nat →
  0 ≤ wordhunt_score w ≤ wordhunt_score w' ∧ wordhunt_score w' ≤ 11.
Proof.
  unfold wordhunt_score. intros Hle.
  repeat match goal with
  | |- context [Z.ltb ?a ?b] => destruct (Z.ltb_spec a b)
  | |- context [Z.leb ?a ?b] => destruct (Z.leb_spec a b)
  | |- context [Z.eqb ?a ?b] => destruct (Z.eqb_spec a b)
  end; lia.
Qed.

Lemma wordhunt_score_monotone_witness :
  (String.length "cat" ≤ String.length "cats")%nat
  ∧ 0 ≤ wordhunt_score "cat" ≤ wordhunt_score "cats"
  ∧ wordhunt_score "cats" ≤ 11.
Proof.
  assert (String.length "cat" ≤ String.length "cats")%nat as Hle
    by (simpl; lia).
  split; [exact Hle|].
  exact (wordhunt_score_monotone "cat" "cats" Hle).
Defined.

(** X16: with [min_len] at least 3 (the default), every word [solve_grid]
    returns scores at least 1. *)
Theorem found_words_score (grid : list (list string)) (trie : Trie)
    (cfg : SolveConfig) (out : gset string) (w : string) :
  3 ≤ min_len cfg → solve_grid grid trie cfg = Ok out → w ∈ out →
  1 ≤ wordhunt_score w.
Proof.
  intros Hmin Hrun Hw.
  pose proof (solve_grid_Ok_covered _ _ _ _ _ Hrun) as Hcov.
  destruct (solve_grid_covered (enough_fuel grid) grid trie cfg Hcov)
    as (out' & Hrun' & Hout); [done|].
  unfold solve_grid in Hrun. rewrite Hrun in Hrun'. injection Hrun' as <-.
  apply Hout in Hw as [[Hlen _]%andb_true_iff _]. apply Z.leb_le in Hlen.
  unfold wordhunt_score.
  repeat match goal with
  | |- context [Z.ltb ?a ?b] => destruct (Z.ltb_spec a b)
  | |- context [Z.leb ?a ?b] => destruct (Z.leb_spec a b)
  | |- context [Z.eqb ?a ?b] => destruct (Z.eqb_spec a b)
  end; lia.
Qed.

Lemma found_words_score_witness :
  3 ≤ min_len default_config
  ∧ solve_grid demo_grid (trie_of demo_words) default_config
    = Ok (list_to_set ["cats"; "cat"])
  ∧ "cat" ∈ (list_to_set ["cats"; "cat"] : gset string)
  ∧ 1 ≤ wordhunt_score "cat".
Proof.
  assert (3 ≤ min_len default_config) as Hmin by (simpl; lia).
  assert (solve_grid demo_grid (trie_of demo_words) default_config
          = Ok (list_to_set ["cats"; "cat"])) as Hrun
    by (vm_compute; reflexivity).
  assert ("cat" ∈ (list_to_set ["cats"; "cat"] : gset string)) as Hin
    by (vm_compute; reflexivity).
  split; [exact Hmin|]. split; [exact Hrun|]. split; [exact Hin|].
  exact (found_words_score demo_grid (trie_of demo_words) default_config
           (list_to_set ["cats"; "cat"]) "cat" Hmin Hrun Hin).
Defined.

(** ** Characters *)

Lemma lower_char_idemp (a : ascii) : lower_char (lower_char a) = lower_char a.
Proof. destruct a as [[] [] [] [] [] [] [] []]; reflexivity. Qed.

Lemma alpha_not_space (a : ascii) :
  is_alpha_char a = true → is_space a = false.
Proof. destruct a as [[] [] [] [] [] [] [] []]; vm_compute; congruence. Qed.

Lemma lower_char_space (a : ascii) : is_space (lower_char a) = is_space a.
Proof. destruct a as [[] [] [] [] [] [] [] []]; reflexivity. Qed.

Lemma lower_idemp (s : string) : lower (lower s) = lower s.
Proof.
  induction s as [|a s IH]; [done|]. simpl. by rewrite lower_char_idemp, IH.
Qed.

Lemma length_lower (s : string) : String.length (lower s) = String.length s.
Proof. induction s as [|a s IH]; [done|]. simpl. by rewrite IH. Qed.

Lemma all_chars_impl (p q : ascii → bool) (s : string) :
  (∀ a, p a = true → q a = true) →
  all_chars p s = true → all_chars q s = true.
Proof.
  intros Hpq. induction s as [|a s IH]; [done|]. simpl.
  rewrite !andb_true_iff. naive_solver.
Qed.

(** X17: every word [load_words] returns is not empty, has at least
    [min_len] characters, consists of letters only (so has no white space),
    and is in lower case already. *)
Theorem load_words_clean (lines : list string) (n : Z) (w : string) :
  w ∈ load_words lines n →
  w ≠ "" ∧ n ≤ Z.of_nat (String.length w)
  ∧ all_chars is_alpha_char w = true
  ∧ all_chars (λ a, negb (is_space a)) w = true
  ∧ lower w = w.
Proof.
  unfold load_words. intros [Hkeep Hin]%list_elem_of_filter.
  apply Is_true_true, andb_true_iff in Hkeep as [Hlen Halpha].
  apply Z.leb_le in Hlen.
  apply list_elem_of_fmap in Hin as (line & -> & _).
  assert (all_chars is_alpha_char (lower (strip line)) = true) as Hall.
  { unfold isalpha in Halpha. by destruct (lower (strip line)). }
  split_and!; try done.
  - intros Hempty. by rewrite Hempty in Halpha.
  - eapply all_chars_impl; [|exact Hall]. intros a Ha.
    by rewrite (alpha_not_space a Ha).
  - apply lower_idemp.
Qed.

Lemma load_words_clean_witness :
  "cat" ∈ load_words ["  Cat "; "a1"; "at"] 3
  ∧ "cat" ≠ "" ∧ 3 ≤ Z.of_nat (String.length "cat")
  ∧ all_chars is_alpha_char "cat" = true
  ∧ all_chars (λ a, negb (is_space a)) "cat" = true
  ∧ lower "cat" = "cat".
Proof.
  assert ("cat" ∈ load_words ["  Cat "; "a1"; "at"] 3) as Hin
    by (apply (bool_decide_unpack _); vm_compute; exact I).
  split; [exact Hin|].
  exact (load_words_clean ["  Cat "; "a1"; "at"] 3 "cat" Hin).
Defined.

(** ** The dictionary of the program and the search *)

Lemma covered_or_short (grid : list (list string)) :
  covered grid ∨ Exists (λ row, (length row < grid_cols grid)%nat) grid.
Proof.
  unfold covered.
  destruct (decide (Forall (λ row, (grid_cols grid ≤ length row)%nat) grid))
    as [?|Hnot]; [by left|right].
  apply not_Forall_Exists in Hnot; [|apply _].
  eapply Exists_impl; [exact Hnot|]. simpl. intros row ?. lia.
Qed.

Lemma load_words_long (lines : list string) (n : Z) (w : string) :
  w ∈ load_words lines n → n ≤ Z.of_nat (String.length w).
Proof.
  unfold load_words. intros [Hkeep _]%list_elem_of_filter.
  apply Is_true_true, andb_true_iff in Hkeep as [Hlen _].
  by apply Z.leb_le.
Qed.


(** X18: the program loads its dictionary with the [min_len] it then gives
    to the solver.  With such a dictionary the solver's own length test
    removes nothing: any smaller [min_len] gives the same outcome. *)
Theorem loaded_dictionary_min_len (lines : list string)
    (grid : list (list string)) (n m : Z) (diag : bool) :
  m ≤ n →
  solve_grid grid (trie_of (load_words lines n)) (mkSolveConfig m diag)
  = solve_grid grid (trie_of (load_words lines n)) (mkSolveConfig n diag).
Proof.
  intros Hle. set (t := trie_of (load_words lines n)).
  destruct (covered_or_short grid) as [Hcov|Hshort].
  - destruct (solve_grid_covered (enough_fuel grid) grid t
                (mkSolveConfig m diag) Hcov) as (o1 & Hrun1 & Hout1); [done|].
    destruct (solve_grid_covered (enough_fuel grid) grid t
                (mkSolveConfig n diag) Hcov) as (o2 & Hrun2 & Hout2); [done|].
    unfold solve_grid. rewrite Hrun1, Hrun2. f_equal.
    apply leibniz_equiv. intros w. rewrite Hout1, Hout2.
    unfold accepts. simpl. rewrite !andb_true_iff, !Z.leb_le.
    split; intros [[Hlen Hw] Hp]; (split; [split; [|done]|done]); [|lia].
    apply has_word_trie_of, load_words_long in Hw. lia.
  - destruct (short_row_raises_both grid t (mkSolveConfig m diag) Hshort)
      as [-> _].
    by destruct (short_row_raises_both grid t (mkSolveConfig n diag) Hshort)
      as [-> _].
Qed.

Lemma loaded_dictionary_min_len_witness :
  0 ≤ 3
  ∧ solve_grid demo_grid (trie_of (load_words ["Cat"; "CATS"; "at"] 3))
      (mkSolveConfig 0 true)
    = solve_grid demo_grid (trie_of (load_words ["Cat"; "CATS"; "at"] 3))
        (mkSolveConfig 3 true).
Proof.
  assert (0 ≤ 3) as Hle by lia.
  split; [exact Hle|].
  exact (loaded_dictionary_min_len ["Cat"; "CATS"; "at"] demo_grid 3 0 true
           Hle).
Defined.

(** ** The grid the program parses *)

Section Rows.

Context {A : Type}.
Implicit Types (f : A → parsed (list string)) (xs : list A).

Lemma each_row_Parsed f xs (grid : list (list string)) :
  each_row f xs = Parsed grid →
  Forall2 (λ x row, f x = Parsed row) xs grid.
Proof.
  revert grid. induction xs as [|x xs IH]; intros grid; simpl.
  - intros [= <-]. constructor.
  - destruct (f x) as [row| |] eqn:Hx; cbn; try done.
    destruct (each_row f xs) as [rows| |]; cbn; try done.
    intros [= <-]. constructor; auto.
Qed.

Lemma each_row_no_stop f xs :
  (∀ x, f x ≠ StopIteration) → each_row f xs ≠ StopIteration.
Proof.
  intros Hf. induction xs as [|x xs IH]; simpl; [done|].
  specialize (Hf x). destruct (f x) as [row| |]; cbn; try done.
  by destruct (each_row f xs).
Qed.

End Rows.

Lemma next_row_Parsed (n : nat) (it row it' : list string) :
  next_row n it = Parsed (row, it') → length row = n ∧ it = row ++ it'.
Proof.
  revert it row it'. induction n as [|n IH]; intros it row it'; simpl.
  - intros [= <- <-]. done.
  - destruct it as [|ch it]; [done|].
    destruct (next_row n it) as [[row1 it1]| |] eqn:Hn; cbn; try done.
    intros [= <- <-]. destruct (IH _ _ _ Hn) as [<- ->]. done.
Qed.

Lemma next_row_enough (n : nat) (it : list string) :
  (n ≤ length it)%nat → ∃ row it', next_row n it = Parsed (row, it').
Proof.
  revert it. induction n as [|n IH]; intros it Hn; simpl; [eauto|].
  destruct it as [|ch it]; [simpl in Hn; lia|].
  destruct (IH it) as (row & it' & ->); [simpl in Hn; lia|]. cbn. eauto.
Qed.

Lemma next_rows_Parsed (k n : nat) (it : list string)
    (grid : list (list string)) :
  next_rows k n it = Parsed grid →
  length grid = k ∧ Forall (λ row, length row = n) grid.
Proof.
  revert it grid. induction k as [|k IH]; intros it grid; simpl.
  - intros [= <-]. done.
  - destruct (next_row n it) as [[row it']| |] eqn:Hrow; cbn; try done.
    destruct (next_rows k n it') as [rows| |] eqn:Hrows; cbn; try done.
    intros [= <-]. destruct (IH _ _ Hrows) as [<- Hall].
    apply next_row_Parsed in Hrow as [<- _]. split; [done|].
    by constructor.
Qed.

Lemma next_rows_enough (k n : nat) (it : list string) :
  (k * n ≤ length it)%nat → ∃ grid, next_rows k n it = Parsed grid.
Proof.
  revert it. induction k as [|k IH]; intros it Hk; simpl; [eauto|].
  destruct (next_row_enough n it) as (row & it' & Hrow); [lia|].
  rewrite Hrow. cbn. apply next_row_Parsed in Hrow as [Hlen ->].
  rewrite length_app in Hk.
  destruct (IH it') as [grid ->]; [lia|]. cbn. eauto.
Qed.

Lemma parse_grid_shape (grid_str : string) (size : Z)
    (grid : list (list string)) :
  parse_grid grid_str size = Parsed grid →
  length grid = Z.to_nat size
  ∧ Forall (λ row, length row = Z.to_nat size) grid.
Proof.
  unfold parse_grid. set (s := lower (strip grid_str)).
  destruct (contains "010" s); [|destruct (contains "/" s)].
  - destruct (Z.eqb_spec (Z.of_nat (length (map strip
        (filter (λ ln, strip ln ≠ "") (splitlines s))))) size)
      as [Hlen|]; cbn [negb]; [|done].
    intros Hrows%each_row_Parsed. split.
    + apply Forall2_length in Hrows. lia.
    + eapply Forall2_Forall_r; [exact Hrows|].
      apply Forall_forall. intros ln _ row. cbn beta.
      destruct (Z.eqb_spec (Z.of_nat (length
        (if contains " " ln then parts ln else letters ln))) size);
        cbn [negb]; [|done].
      intros [= <-]. lia.
  - destruct (each_row _ _) as [rows| |] eqn:Hrows; cbn; try done.
    destruct (Z.eqb_spec (Z.of_nat (length rows)) size); cbn [negb]; [|done].
    intros [= <-]. split; [lia|].
    apply each_row_Parsed in Hrows.
    eapply Forall2_Forall_r; [exact Hrows|].
    apply Forall_forall. intros ln _ row. cbn beta.
    destruct (Z.eqb_spec (Z.of_nat (length (parts ln))) size).
    { intros [= <-]. lia. }
    destruct (Z.eqb_spec (Z.of_nat (length (letters ln))) size);
      cbn [negb]; [|done].
    intros [= <-]. lia.
  - destruct (Z.of_nat (length (letters s)) =? size * size); cbn [negb];
      [|done].
    apply next_rows_Parsed.
Qed.

(** X19: a grid [parse_grid] returns is square of side [size]: it has [size]
    rows and every row has [size] tokens (no row at all when [size] is
    negative). *)
Theorem parse_grid_square (grid_str : string) (size : Z)
    (grid : list (list string)) :
  parse_grid grid_str size = Parsed grid →
  length grid = Z.to_nat size
  ∧ Forall (λ row, length row = Z.to_nat size) grid
  ∧ rectangular grid.
Proof.
  intros [Hlen Hall]%parse_grid_shape. split_and!; try done.
  unfold rectangular, grid_cols. destruct grid as [|row0 grid]; [done|].
  simpl. pose proof Hall as [-> _]%Forall_cons. done.
Qed.

Lemma parse_grid_square_witness :
  parse_grid "catsabcde" 3
  = Parsed [["c"; "a"; "t"]; ["s"; "a"; "b"]; ["c"; "d"; "e"]]
  ∧ length [["c"; "a"; "t"]; ["s"; "a"; "b"]; ["c"; "d"; "e"]] = Z.to_nat 3
  ∧ Forall (λ row, length row = Z.to_nat 3)
           [["c"; "a"; "t"]; ["s"; "a"; "b"]; ["c"; "d"; "e"]]
  ∧ rectangular [["c"; "a"; "t"]; ["s"; "a"; "b"]; ["c"; "d"; "e"]].
Proof.
  assert (parse_grid "catsabcde" 3
          = Parsed [["c"; "a"; "t"]; ["s"; "a"; "b"]; ["c"; "d"; "e"]])
    as Hrun by (vm_compute; reflexivity).
  split; [exact Hrun|].
  exact (parse_grid_square "catsabcde" 3 _ Hrun).
Defined.

(** X20: [parse_grid] raises nothing but [ValueError]: the iterator over the
    letters of a compact grid is never used up. *)
Theorem parse_grid_no_stop (grid_str : string) (size : Z) :
  parse_grid grid_str size ≠ StopIteration.
Proof.
  unfold parse_grid. set (s := lower (strip grid_str)).
  destruct (contains "010" s); [|destruct (contains "/" s)].
  - destruct (negb _); [done|]. apply each_row_no_stop.
    intros ln. cbn beta. by destruct (negb _).
  - destruct (each_row _ _) as [rows| |] eqn:Hrows; cbn.
    + by destruct (negb _).
    + done.
    + apply each_row_no_stop in Hrows; [done|]. intros row. cbn beta.
      destruct (_ =? _); [done|]. by destruct (negb _).
  - destruct (Z.eqb_spec (Z.of_nat (length (letters s))) (size * size))
      as [Hlen|]; cbn [negb]; [|done].
    destruct (next_rows_enough (Z.to_nat size) (Z.to_nat size) (letters s))
      as [grid ->]; [|done].
    destruct (Z.le_gt_cases 0 size); [nia|].
    replace (Z.to_nat size) with 0%nat by lia. simpl. lia.
Qed.

(** X21: a grid [parse_grid] returned never makes the solver raise
    [IndexError]: both entry points return a result when the recursion limit
    leaves room for as many nested calls as the grid has cells, and under a
    smaller limit they end in a result or in [RecursionError]. *)
Theorem parsed_grid_solves (grid_str : string) (size : Z)
    (grid : list (list string)) (trie : Trie) (cfg : SolveConfig) :
  parse_grid grid_str size = Parsed grid →
  (∀ fuel,
     solve_grid_fuel fuel grid trie cfg ≠ IndexError
     ∧ solve_grid_with_paths_fuel fuel grid trie cfg ≠ IndexError)
  ∧ (∀ fuel, (enough_fuel grid ≤ fuel)%nat →
       ∃ out paths,
         solve_grid_fuel fuel grid trie cfg = Ok out
         ∧ solve_grid_with_paths_fuel fuel grid trie cfg = Ok paths).
Proof.
  intros [Hlen Hall]%parse_grid_shape.
  assert (covered grid) as Hcov.
  { unfold covered, grid_cols. destruct grid as [|row0 grid]; [done|].
    simpl. pose proof Hall as [-> _]%Forall_cons.
    eapply Forall_impl; [exact Hall|]. by intros row ->. }
  destruct (solve_grid_with_paths_covered (enough_fuel grid) grid trie cfg Hcov)
    as (paths & Hrun & _); [done|].
  assert (solve_grid grid trie cfg = Ok (dom paths)) as Hset.
  { unfold solve_grid. rewrite <- solve_grid_fuel_agree. by rewrite Hrun. }
  split.
  - intros fuel. split.
    + intros E. apply solve_grid_fuel_settled in E; [congruence|done].
    + intros E. apply solve_grid_with_paths_fuel_settled in E; [|done].
      unfold solve_grid_with_paths in E. congruence.
  - intros fuel Hfuel. exists (dom paths), paths.
    by rewrite solve_grid_fuel_enough, solve_grid_with_paths_fuel_enough.
Qed.

Lemma parsed_grid_solves_witness :
  parse_grid "cats" 2 = Parsed demo_grid
  ∧ (∀ fuel,
       solve_grid_fuel fuel demo_grid (trie_of demo_words) demo_config
       ≠ IndexError
       ∧ solve_grid_with_paths_fuel fuel demo_grid (trie_of demo_words)
           demo_config ≠ IndexError)
  ∧ (∀ fuel, (enough_fuel demo_grid ≤ fuel)%nat →
       ∃ out paths,
         solve_grid_fuel fuel demo_grid (trie_of demo_words) demo_config
         = Ok out
         ∧ solve_grid_with_paths_fuel fuel demo_grid (trie_of demo_words)
             demo_config = Ok paths).
Proof.
  assert (parse_grid "cats" 2 = Parsed demo_grid) as Hrun
    by (vm_compute; reflexivity).
  split; [exact Hrun|].
  exact (parsed_grid_solves "cats" 2 demo_grid (trie_of demo_words)
           demo_config Hrun).
Defined.

(** ** The tokens of a parsed grid *)

Section Chars.

Variable p : ascii → bool.

Lemma all_chars_app (s1 s2 : string) :
  all_chars p (s1 +:+ s2) = all_chars p s1 && all_chars p s2.
Proof.
  induction s1 as [|a s1 IH]; [done|]. rewrite Str.app_cons. simpl.
  by rewrite IH, andb_assoc.
Qed.

Lemma all_chars_snoc (s : string) (a : ascii) :
  all_chars p s = true → p a = true → all_chars p (s +:+ String a "") = true.
Proof. intros Hs Ha. rewrite all_chars_app, Hs. simpl. by rewrite Ha. Qed.

Lemma all_chars_rev_app (s1 s2 : string) :
  all_chars p (String.rev_app s1 s2) = all_chars p s1 && all_chars p s2.
Proof.
  revert s2. induction s1 as [|a s1 IH]; intros s2; [done|]. simpl.
  rewrite IH. simpl. destruct (p a), (all_chars p s1); simpl; try done.
Qed.

Lemma all_chars_rev (s : string) : all_chars p (String.rev s) = all_chars p s.
Proof. unfold String.rev. rewrite all_chars_rev_app. simpl. apply andb_true_r. Qed.

Lemma all_chars_lstrip (s : string) :
  all_chars p s = true → all_chars p (lstrip s) = true.
Proof.
  induction s as [|a s IH]; [done|]. simpl.
  intros [Ha Hs]%andb_true_iff. destruct (is_space a); [auto|].
  simpl. by rewrite Ha, Hs.
Qed.

Lemma all_chars_strip (s : string) :
  all_chars p s = true → all_chars p (strip s) = true.
Proof.
  intros Hs. unfold strip, rstrip. rewrite all_chars_rev.
  apply all_chars_lstrip. rewrite all_chars_rev. by apply all_chars_lstrip.
Qed.

Lemma all_chars_splitlines_from (n : nat) (cur s : string) :
  (String.length s ≤ n)%nat →
  all_chars p cur = true → all_chars p s = true →
  Forall (λ ln, all_chars p ln = true) (splitlines_from cur s).
Proof.
  revert cur s. induction n as [|n IH]; intros cur s Hn Hcur Hs.
  - destruct s; [|simpl in Hn; lia]. simpl.
    destruct cur; [constructor|by repeat constructor].
  - destruct s as [|a s]; simpl.
    { destruct cur; [constructor|by repeat constructor]. }
    simpl in Hn, Hs. apply andb_true_iff in Hs as [Ha Hs].
    destruct (is_linebreak a).
    + constructor; [done|]. apply IH; [|done|].
      * destruct s as [|b s]; [simpl; lia|].
        destruct (decide _); simpl in *; lia.
      * destruct s as [|b s]; [done|].
        destruct (decide _); [|done]. simpl in Hs.
        by apply andb_true_iff in Hs as [_ ?].
    + apply IH; [lia| |done]. by apply all_chars_snoc.
Qed.

Lemma all_chars_split_on_from (sep : ascii) (cur s : string) :
  all_chars p cur = true → all_chars p s = true →
  Forall (λ ln, all_chars p ln = true) (split_on_from sep cur s).
Proof.
  revert cur. induction s as [|a s IH]; intros cur Hcur Hs; simpl.
  - by repeat constructor.
  - simpl in Hs. apply andb_true_iff in Hs as [Ha Hs].
    destruct (decide (a = sep)).
    + constructor; [done|]. by apply IH.
    + apply IH; [|done]. by apply all_chars_snoc.
Qed.

Lemma all_chars_split_ws_from (cur s : string) :
  all_chars p cur = true → all_chars p s = true →
  Forall (λ tok, all_chars p tok = true) (split_ws_from cur s).
Proof.
  revert cur. induction s as [|a s IH]; intros cur Hcur Hs; simpl.
  - destruct cur; [constructor|by repeat constructor].
  - simpl in Hs. apply andb_true_iff in Hs as [Ha Hs].
    destruct (is_space a).
    + destruct cur; [by apply IH|]. constructor; [done|]. by apply IH.
    + apply IH; [|done]. by apply all_chars_snoc.
Qed.

Lemma all_chars_letters (s : string) :
  all_chars p s = true →
  Forall (λ tok, all_chars p tok = true) (letters s).
Proof.
  induction s as [|a s IH]; simpl; [constructor|].
  intros [Ha Hs]%andb_true_iff.
  destruct (is_alpha_char a && true); [|auto].
  constructor; [|auto]. simpl. by rewrite Ha.
Qed.

End Chars.

Lemma split_ws_from_no_space (cur s : string) :
  all_chars (λ a, negb (is_space a)) cur = true →
  Forall (λ tok, all_chars (λ a, negb (is_space a)) tok = true)
         (split_ws_from cur s).
Proof.
  revert cur. induction s as [|a s IH]; intros cur Hcur; simpl.
  - destruct cur; [constructor|by repeat constructor].
  - destruct (is_space a) eqn:Ha.
    + destruct cur; [by apply IH|]. constructor; [done|]. by apply IH.
    + apply IH. apply all_chars_snoc; [done|]. by rewrite Ha.
Qed.

Lemma letters_one_letter (s : string) :
  Forall (λ tok, ∃ a, tok = String a "" ∧ is_alpha_char a = true) (letters s).
Proof.
  induction s as [|a s IH]; simpl; [constructor|].
  destruct (is_alpha_char a) eqn:Ha; simpl; [|done].
  constructor; [|done]. by exists a.
Qed.

Lemma all_chars_lower (s : string) : all_chars lowered_char (lower s) = true.
Proof.
  induction s as [|a s IH]; [done|]. simpl. rewrite IH.
  unfold lowered_char. by rewrite bool_decide_eq_true_2 by apply lower_char_idemp.
Qed.

Lemma rev_app_rev_app (s1 s2 s3 : string) :
  String.rev_app (String.rev_app s1 s2) s3 = String.rev_app s2 (s1 +:+ s3).
Proof.
  revert s2 s3. induction s1 as [|a s1 IH]; intros s2 s3; [done|].
  simpl. rewrite IH. simpl. by rewrite Str.app_cons.
Qed.

Lemma rev_involutive (s : string) : String.rev (String.rev s) = s.
Proof.
  unfold String.rev. rewrite rev_app_rev_app. simpl. apply Str.app_nil_r.
Qed.

Lemma lstrip_no_space (s : string) :
  all_chars (λ a, negb (is_space a)) s = true → lstrip s = s.
Proof.
  destruct s as [|a s]; [done|]. simpl.
  intros [Ha _]%andb_true_iff. by destruct (is_space a).
Qed.

(** [lower] and [strip] leave a string of plain characters as it is. *)
Lemma normalize_plain (tok : string) :
  all_chars (λ a, negb (is_space a)) tok = true →
  all_chars lowered_char tok = true →
  normalize tok = tok.
Proof.
  intros Hsp Hlow. unfold normalize.
  assert (lower tok = tok) as ->.
  { clear Hsp. induction tok as [|a tok IH]; [done|]. simpl in *.
    apply andb_true_iff in Hlow as [Ha Hlow].
    apply bool_decide_eq_true_1 in Ha. by rewrite Ha, IH. }
  unfold strip, rstrip. rewrite (lstrip_no_space tok) by done.
  rewrite lstrip_no_space; [apply rev_involutive|].
  by rewrite all_chars_rev.
Qed.

Lemma letters_plain (ln : string) :
  all_chars lowered_char ln = true → Forall plain_token (letters ln).
Proof.
  intros Hlow. apply Forall_forall. intros tok Htok.
  pose proof (all_chars_letters lowered_char ln Hlow) as Hall.
  pose proof (letters_one_letter ln) as Hone.
  eapply Forall_forall in Hall; [|exact Htok].
  eapply Forall_forall in Hone as (a & Heq & Ha); [|exact Htok].
  subst tok. unfold plain_token. split_and!; [done| |done].
  simpl. by rewrite (alpha_not_space a Ha).
Qed.

Lemma parts_plain (ln : string) :
  all_chars lowered_char ln = true → Forall plain_token (parts ln).
Proof.
  intros Hlow. apply Forall_forall. intros tok [Hne Htok]%list_elem_of_filter.
  pose proof (all_chars_split_ws_from lowered_char "" ln eq_refl Hlow) as Hall.
  pose proof (split_ws_from_no_space "" ln eq_refl) as Hsp.
  unfold split_ws in Htok.
  eapply Forall_forall in Hall; [|exact Htok].
  eapply Forall_forall in Hsp; [|exact Htok]. by unfold plain_token.
Qed.

Lemma next_rows_elements (P : string → Prop) (k n : nat) (it : list string)
    (grid : list (list string)) :
  Forall P it → next_rows k n it = Parsed grid → Forall (Forall P) grid.
Proof.
  revert it grid. induction k as [|k IH]; intros it grid Hit; simpl.
  - intros [= <-]. constructor.
  - destruct (next_row n it) as [[row it']| |] eqn:Hrow; cbn; try done.
    destruct (next_rows k n it') as [rows| |] eqn:Hrows; cbn; try done.
    intros [= <-]. apply next_row_Parsed in Hrow as [_ ->].
    apply Forall_app in Hit as [Hrow Hit']. constructor; eauto.
Qed.

Lemma parse_grid_plain (grid_str : string) (size : Z)
    (grid : list (list string)) :
  parse_grid grid_str size = Parsed grid → Forall (Forall plain_token) grid.
Proof.
  unfold parse_grid. set (s := lower (strip grid_str)).
  assert (all_chars lowered_char s = true) as Hs by apply all_chars_lower.
  destruct (contains "010" s); [|destruct (contains "/" s)].
  - destruct (negb _); [done|]. intros Hrows%each_row_Parsed.
    eapply Forall2_Forall_r; [exact Hrows|].
    apply Forall_forall. intros ln Hln row. cbn beta.
    destruct (negb _); [done|]. intros [= <-].
    apply list_elem_of_fmap in Hln as (ln0 & -> & [_ Hln0]%list_elem_of_filter).
    assert (all_chars lowered_char (strip ln0) = true) as Hlow.
    { apply all_chars_strip.
      pose proof (all_chars_splitlines_from lowered_char (String.length s)
                    "" s (le_n _) eq_refl Hs) as Hall.
      by eapply Forall_forall in Hall. }
    destruct (contains " " (strip ln0)); auto using parts_plain, letters_plain.
  - destruct (each_row _ _) as [rows| |] eqn:Hrows; cbn; try done.
    destruct (negb _); [done|]. intros [= <-].
    apply each_row_Parsed in Hrows.
    eapply Forall2_Forall_r; [exact Hrows|].
    apply Forall_forall. intros ln Hln row. cbn beta.
    apply list_elem_of_fmap in Hln as (ln0 & -> & Hln0).
    assert (all_chars lowered_char (strip ln0) = true) as Hlow.
    { apply all_chars_strip.
      pose proof (all_chars_split_on_from lowered_char "/" "" s eq_refl Hs)
        as Hall.
      by eapply Forall_forall in Hall. }
    destruct (_ =? _); [intros [= <-]; by apply parts_plain|].
    destruct (negb _); [done|]. intros [= <-]. by apply letters_plain.
  - destruct (negb _); [done|].
    apply next_rows_elements. by apply letters_plain.
Qed.

(** X22: the tokens of a grid [parse_grid] returns are not empty, contain no
    white space and are in lower case, so the solver's [lower().strip()]
    changes none of them: it searches the parsed grid as it is. *)
Theorem parsed_tokens_plain (grid_str : string) (size : Z)
    (grid : list (list string)) :
  parse_grid grid_str size = Parsed grid →
  Forall (Forall plain_token) grid ∧ tokens grid = grid.
Proof.
  intros Hplain%parse_grid_plain. split; [done|].
  unfold tokens. induction Hplain as [|row grid Hrow _ IH]; [done|].
  cbn [map]. rewrite IH. f_equal. clear IH.
  induction Hrow as [|tok row (_ & Hsp & Hlow) _ IH]; [done|].
  cbn [map]. by rewrite IH, normalize_plain.
Qed.

Lemma parsed_tokens_plain_witness :
  parse_grid " Qu A / b C " 2 = Parsed [["qu"; "a"]; ["b"; "c"]]
  ∧ Forall (Forall plain_token) [["qu"; "a"]; ["b"; "c"]]
  ∧ tokens [["qu"; "a"]; ["b"; "c"]] = [["qu"; "a"]; ["b"; "c"]].
Proof.
  assert (parse_grid " Qu A / b C " 2 = Parsed [["qu"; "a"]; ["b"; "c"]])
    as Hrun by (vm_compute; reflexivity).
  split; [exact Hrun|].
  exact (parsed_tokens_plain " Qu A / b C " 2 _ Hrun).
Defined.

(** X23: a compact grid (no line break and no slash once stripped) is parsed
    into single letters: every token is one alphabetic character, and so is
    every token as the solver reads it. *)
Theorem compact_grid_letters (grid_str : string) (size : Z)
    (grid : list (list string)) :
  contains "010"%char (lower (strip grid_str)) = false →
  contains "/"%char (lower (strip grid_str)) = false →
  parse_grid grid_str size = Parsed grid →
  Forall (Forall (λ tok, ∃ a, tok = String a "" ∧ is_alpha_char a = true)) grid
  ∧ single_letters grid.
Proof.
  intros Hnl Hsl Hrun.
  assert (Forall (Forall (λ tok, ∃ a, tok = String a ""
                                   ∧ is_alpha_char a = true)) grid) as Hone.
  { unfold parse_grid in Hrun. rewrite Hnl, Hsl in Hrun.
    destruct (negb _); [done|].
    eapply next_rows_elements; [|exact Hrun]. apply letters_one_letter. }
  split; [done|].
  pose proof (parse_grid_plain grid_str size grid Hrun) as Hplain.
  unfold single_letters.
  eapply Forall_impl; [apply Forall_and; split; [exact Hone|exact Hplain]|].
  intros row [H1 H2]. cbn beta.
  eapply Forall_impl; [apply Forall_and; split; [exact H1|exact H2]|].
  intros tok [(a & -> & _) (_ & Hsp & Hlow)]. cbn beta.
  by rewrite normalize_plain.
Qed.

Lemma compact_grid_letters_witness :
  contains "010"%char (lower (strip "CATS")) = false
  ∧ contains "/"%char (lower (strip "CATS")) = false
  ∧ parse_grid "CATS" 2 = Parsed demo_grid
  ∧ Forall (Forall (λ tok, ∃ a, tok = String a "" ∧ is_alpha_char a = true))
           demo_grid
  ∧ single_letters demo_grid.
Proof.
  assert (parse_grid "CATS" 2 = Parsed demo_grid) as Hrun
    by (vm_compute; reflexivity).
  split; [reflexivity|]. split; [reflexivity|]. split; [exact Hrun|].
  exact (compact_grid_letters "CATS" 2 demo_grid eq_refl eq_refl Hrun).
Defined.

(** ** Compact grids *)

Lemma lower_lowered (s : string) :
  all_chars lowered_char s = true → lower s = s.
Proof.
  induction s as [|a s IH]; [done|]. simpl.
  intros [Ha Hs]%andb_true_iff. apply bool_decide_eq_true_1 in Ha.
  by rewrite Ha, IH.
Qed.

Lemma strip_no_space (s : string) :
  all_chars (λ a, negb (is_space a)) s = true → strip s = s.
Proof.
  intros Hsp. unfold strip, rstrip. rewrite (lstrip_no_space s) by done.
  rewrite lstrip_no_space; [apply rev_involutive|]. by rewrite all_chars_rev.
Qed.

Lemma contains_none (p : ascii → bool) (c : ascii) (s : string) :
  all_chars p s = true → p c = false → contains c s = false.
Proof.
  intros Hs Hc. induction s as [|a s IH]; [done|]. simpl in *.
  apply andb_true_iff in Hs as [Ha Hs].
  destruct (decide (c = a)) as [->|_]; [congruence|auto].
Qed.

Lemma next_row_app (row it : list string) :
  next_row (length row) (row ++ it) = Parsed (row, it).
Proof. induction row as [|ch row IH]; [done|]. simpl. by rewrite IH. Qed.

Lemma next_rows_concat (n : nat) (grid : list (list string)) :
  Forall (λ row, length row = n) grid →
  next_rows (length grid) n (concat grid) = Parsed grid.
Proof.
  induction 1 as [|row grid <- _ IH]; [done|]. simpl.
  rewrite next_row_app. cbn. by rewrite IH.
Qed.

Lemma compact_of_letters (grid : list (list string)) :
  Forall (Forall lower_letter) grid →
  letters (compact_of grid) = concat grid
  ∧ all_chars is_alpha_char (compact_of grid) = true
  ∧ all_chars lowered_char (compact_of grid) = true.
Proof.
  unfold compact_of. intros Hgrid.
  assert (Forall lower_letter (concat grid)) as Hall.
  { induction Hgrid; simpl; [constructor|]. by apply Forall_app. }
  clear Hgrid. induction Hall as [|tok toks (a & -> & Ha & Hlow) _ IH];
    [done|].
  destruct IH as (IH1 & IH2 & IH3). cbn [foldr].
  rewrite Str.app_cons. change ("" +:+ ?x) with x. simpl.
  rewrite Ha, IH1, IH2, IH3. simpl. split_and!; try done.
  unfold lowered_char. by rewrite bool_decide_eq_true_2.
Qed.

Lemma length_concat_rows (n : nat) (grid : list (list string)) :
  Forall (λ row, length row = n) grid →
  length (concat grid) = (length grid * n)%nat.
Proof.
  induction 1 as [|row grid Hrow _ IH]; [done|].
  simpl. rewrite length_app, Hrow, IH. done.
Qed.

(** X24: round trip through the compact form.  A square grid of single
    lower-case letters, written out row by row without separators, is parsed
    back into the same grid. *)
Theorem parse_compact_roundtrip (n : nat) (grid : list (list string)) :
  length grid = n → Forall (λ row, length row = n) grid →
  Forall (Forall lower_letter) grid →
  parse_grid (compact_of grid) (Z.of_nat n) = Parsed grid.
Proof.
  intros Hrows Hcols Hletters.
  destruct (compact_of_letters grid Hletters) as (Hlet & Halpha & Hlow).
  assert (all_chars (λ a, negb (is_space a)) (compact_of grid) = true) as Hsp.
  { eapply all_chars_impl; [|exact Halpha]. intros a Ha.
    by rewrite (alpha_not_space a Ha). }
  unfold parse_grid.
  rewrite (strip_no_space _ Hsp), (lower_lowered _ Hlow).
  rewrite (contains_none is_alpha_char "010" _ Halpha eq_refl).
  rewrite (contains_none is_alpha_char "/" _ Halpha eq_refl).
  rewrite Hlet.
  assert (length (concat grid) = (n * n)%nat) as Hlen.
  { rewrite <- Hrows at 1. by apply length_concat_rows. }
  rewrite Hlen, Nat2Z.inj_mul, Z.eqb_refl. cbn [negb].
  rewrite Nat2Z.id. rewrite <- Hrows at 1. by apply next_rows_concat.
Qed.

Lemma demo_lower_letters : Forall (Forall lower_letter) demo_grid.
Proof. repeat constructor; eexists; split_and!; reflexivity. Qed.

Lemma parse_compact_roundtrip_witness :
  length demo_grid = 2%nat
  ∧ Forall (λ row, length row = 2%nat) demo_grid
  ∧ Forall (Forall lower_letter) demo_grid
  ∧ parse_grid (compact_of demo_grid) (Z.of_nat 2) = Parsed demo_grid.
Proof.
  assert (Forall (λ row, length row = 2%nat) demo_grid) as Hcols
    by (repeat constructor).
  split; [reflexivity|]. split; [exact Hcols|].
  split; [exact demo_lower_letters|].
  exact (parse_compact_roundtrip 2 demo_grid eq_refl Hcols demo_lower_letters).
Defined.

Lemma tokens_plain (grid : list (list string)) :
  Forall (Forall plain_token) grid → tokens grid = grid.
Proof.
  intros Hplain. unfold tokens.
  induction Hplain as [|row rows Hrow _ IH]; [done|].
  cbn [map]. rewrite IH. f_equal. clear IH.
  induction Hrow as [|tok row (_ & Hsp & Hlow) _ IH]; [done|].
  cbn [map]. by rewrite IH, normalize_plain.
Qed.

Lemma compact_single_letters (grid_str : string) (size : Z)
    (grid : list (list string)) :
  contains "010"%char (lower (strip grid_str)) = false →
  contains "/"%char (lower (strip grid_str)) = false →
  parse_grid grid_str size = Parsed grid →
  single_letters grid.
Proof.
  intros Hnl Hsl Hrun.
  assert (Forall (Forall (λ tok, ∃ a, tok = String a ""
                                   ∧ is_alpha_char a = true)) grid) as Hone.
  { unfold parse_grid in Hrun. rewrite Hnl, Hsl in Hrun.
    destruct (negb _); [done|].
    eapply next_rows_elements; [|exact Hrun]. apply letters_one_letter. }
  pose proof (parse_grid_plain grid_str size grid Hrun) as Hplain.
  unfold single_letters.
  eapply Forall_impl; [apply Forall_and; split; [exact Hone|exact Hplain]|].
  intros row [H1 H2]. cbn beta.
  eapply Forall_impl; [apply Forall_and; split; [exact H1|exact H2]|].
  intros tok [(a & -> & _) (_ & Hsp & Hlow)]. cbn beta.
  by rewrite normalize_plain.
Qed.

(** X25: on a grid parsed from a compact string, the path [
    solve_grid_with_paths] gives for a word has exactly one coordinate for
    each character of the word, and the cells of the parsed grid at these
    coordinates spell the word. *)
Theorem compact_grid_paths (grid_str : string) (size : Z)
    (grid : list (list string)) (trie : Trie) (cfg : SolveConfig)
    (paths : gmap string (list Coord)) (w : string) (p : list Coord) :
  contains "010"%char (lower (strip grid_str)) = false →
  contains "/"%char (lower (strip grid_str)) = false →
  parse_grid grid_str size = Parsed grid →
  solve_grid_with_paths grid trie cfg = Ok paths → paths !! w = Some p →
  length p = String.length w ∧ spell grid p = Ok w.
Proof.
  intros Hnl Hsl Hparse Hrun Hp.
  pose proof (compact_single_letters _ _ _ Hnl Hsl Hparse) as Hone.
  assert (tokens grid = grid) as Htok
    by (apply tokens_plain; by eapply parse_grid_plain).
  assert (covered grid) as Hcov.
  { apply (solve_grid_Ok_covered (enough_fuel grid) grid trie cfg (dom paths)).
    rewrite <- solve_grid_fuel_agree. unfold solve_grid_with_paths in Hrun.
    by rewrite Hrun. }
  destruct (solve_grid_with_paths_covered (enough_fuel grid) grid trie cfg Hcov)
    as (paths' & Hrun' & Hsound & _); [done|].
  unfold solve_grid_with_paths in Hrun. rewrite Hrun in Hrun'.
  injection Hrun' as <-. destruct (Hsound w p Hp) as [[_ _ _ _ Hsp] _].
  destruct (spell_length grid p w Hsp) as [Hlen _].
  rewrite Htok in Hsp. split; [|done]. by rewrite Hlen.
Qed.

Lemma compact_grid_paths_witness :
  contains "010"%char (lower (strip "CATS")) = false
  ∧ contains "/"%char (lower (strip "CATS")) = false
  ∧ parse_grid "CATS" 2 = Parsed demo_grid
  ∧ solve_grid_with_paths demo_grid (trie_of demo_words) demo_config
    = Ok demo_paths
  ∧ demo_paths !! "cat" = Some [(0, 0); (0, 1); (1, 0)]
  ∧ length [(0, 0); (0, 1); (1, 0)] = String.length "cat"
  ∧ spell demo_grid [(0, 0); (0, 1); (1, 0)] = Ok "cat".
Proof.
  assert (parse_grid "CATS" 2 = Parsed demo_grid) as Hparse
    by (vm_compute; reflexivity).
  assert (demo_paths !! "cat" = Some [(0, 0); (0, 1); (1, 0)]) as Hp
    by (vm_compute; reflexivity).
  split; [reflexivity|]. split; [reflexivity|]. split; [exact Hparse|].
  split; [exact demo_run_paths|]. split; [exact Hp|].
  exact (compact_grid_paths "CATS" 2 demo_grid (trie_of demo_words)
           demo_config demo_paths "cat" [(0, 0); (0, 1); (1, 0)]
           eq_refl eq_refl Hparse demo_run_paths Hp).
Defined.

(** X26: on a grid parsed from a compact string of side [size], a [min_len]
    greater than [size * size] leaves nothing to find: every set [solve_grid]
    returns is empty, and it returns the empty set when the recursion limit
    leaves room for as many nested calls as the grid has cells. *)
Theorem compact_grid_cell_bound (grid_str : string) (size : Z)
    (grid : list (list string)) (trie : Trie) (cfg : SolveConfig) :
  contains "010"%char (lower (strip grid_str)) = false →
  contains "/"%char (lower (strip grid_str)) = false →
  parse_grid grid_str size = Parsed grid →
  size * size < min_len cfg →
  (∀ fuel out, solve_grid_fuel fuel grid trie cfg = Ok out → out = ∅)
  ∧ (∀ fuel, (enough_fuel grid ≤ fuel)%nat →
       solve_grid_fuel fuel grid trie cfg = Ok ∅).
Proof.
  intros Hnl Hsl Hparse Hmin.
  pose proof (compact_single_letters _ _ _ Hnl Hsl Hparse) as Hone.
  destruct (parse_grid_shape _ _ _ Hparse) as [Hrows Hcols].
  assert (covered grid) as Hcov.
  { unfold covered, grid_cols. destruct grid as [|row0 rows]; [done|].
    simpl. pose proof Hcols as [-> _]%Forall_cons.
    eapply Forall_impl; [exact Hcols|]. by intros row ->. }
  destruct (solve_grid_covered (enough_fuel grid) grid trie cfg Hcov)
    as (out & Hrun & Hout); [done|].
  assert (out = ∅) as ->.
  { apply leibniz_equiv. intros w. split; [|by intros ?%elem_of_empty].
    intros [[Hlen _]%andb_true_iff [p Hp]]%Hout. exfalso.
    apply Z.leb_le in Hlen.
    pose proof (traces_length _ _ _ _ Hp) as Hcells.
    destruct (spell_length grid p w (traces_spell _ _ _ _ Hp)) as [Hw _].
    specialize (Hw Hone).
    assert (grid_rows grid * grid_cols grid
            ≤ Z.to_nat size * Z.to_nat size)%nat as Hbound.
    { unfold grid_rows, grid_cols. rewrite Hrows.
      destruct grid as [|row0 rows]; [simpl; lia|].
      simpl. by pose proof Hcols as [-> _]%Forall_cons. }
    destruct (Z.le_gt_cases 0 size); [nia|].
    replace (Z.to_nat size) with 0%nat in Hbound by lia. nia. }
  split.
  - intros fuel out Hrun'%solve_grid_fuel_Ok. unfold solve_grid in Hrun'.
    congruence.
  - intros fuel Hfuel. rewrite solve_grid_fuel_enough by done. exact Hrun.
Qed.

Lemma compact_grid_cell_bound_witness :
  contains "010"%char (lower (strip "CATS")) = false
  ∧ contains "/"%char (lower (strip "CATS")) = false
  ∧ parse_grid "CATS" 2 = Parsed demo_grid
  ∧ 2 * 2 < min_len (mkSolveConfig 5 true)
  ∧ (∀ fuel out,
       solve_grid_fuel fuel demo_grid (trie_of demo_words)
         (mkSolveConfig 5 true) = Ok out → out = ∅)
  ∧ (∀ fuel, (enough_fuel demo_grid ≤ fuel)%nat →
       solve_grid_fuel fuel demo_grid (trie_of demo_words)
         (mkSolveConfig 5 true) = Ok ∅).
Proof.
  assert (parse_grid "CATS" 2 = Parsed demo_grid) as Hparse
    by (vm_compute; reflexivity).
  assert (2 * 2 < min_len (mkSolveConfig 5 true)) as Hmin by (simpl; lia).
  split; [reflexivity|]. split; [reflexivity|]. split; [exact Hparse|].
  split; [exact Hmin|].
  exact (compact_grid_cell_bound "CATS" 2 demo_grid (trie_of demo_words)
           (mkSolveConfig 5 true) eq_refl eq_refl Hparse Hmin).
Defined.

(** ** The words the program prints *)

Lemma rank_le_total : Total rank_le.
Proof.
  intros w1 w2. unfold rank_le, key_le, rank_key. simpl.
  destruct (Z.lt_trichotomy (- wordhunt_score w1) (- wordhunt_score w2))
    as [?|[Ha|?]]; [by left; left| |by right; left; lia].
  destruct (Z.lt_trichotomy (- Z.of_nat (String.length w1))
              (- Z.of_nat (String.length w2))) as [?|[Hb|?]].
  - left. right. split; [done|]. by left.
  - destruct (total String.le w1 w2); [left|right]; right;
      (split; [lia|]); right; (split; [lia|done]).
  - right. right. split; [lia|]. left. lia.
Qed.

Lemma rank_le_trans : Transitive rank_le.
Proof.
  intros w1 w2 w3. unfold rank_le, key_le, rank_key. simpl.
  intros [?|[? [?|[? H12]]]] [?|[? [?|[? H23]]]];
    try (left; lia); try (right; split; [lia|left; lia]).
  right. split; [lia|]. right. split; [lia|]. by etrans.
Qed.

Lemma rank_le_antisymm : AntiSymm (=) rank_le.
Proof.
  intros w1 w2. unfold rank_le, key_le, rank_key. simpl.
  intros [?|[? [?|[? H12]]]] [?|[? [?|[? H21]]]]; try lia.
  by apply (anti_symm String.le).
Qed.

Lemma rank_le_score (w1 w2 : string) :
  rank_le w1 w2 → wordhunt_score w2 ≤ wordhunt_score w1.
Proof. unfold rank_le, key_le, rank_key. simpl. lia. Qed.

Lemma StronglySorted_sublist {A : Type} (R : relation A) (l1 l2 : list A) :
  l1 `sublist_of` l2 → StronglySorted R l2 → StronglySorted R l1.
Proof.
  induction 1 as [|x l1 l2 Hsub IH|x l1 l2 Hsub IH]; intros Hs.
  - constructor.
  - apply StronglySorted_inv in Hs as [Hs Hall]. constructor; [auto|].
    eapply Forall_forall. intros y Hy. eapply Forall_forall in Hall; [done|].
    by eapply elem_of_sublist.
  - apply StronglySorted_inv in Hs as [Hs _]. auto.
Qed.

Lemma StronglySorted_weaken {A : Type} (R R' : relation A) (l : list A) :
  (∀ x y, R x y → R' x y) → StronglySorted R l → StronglySorted R' l.
Proof.
  intros Himp. induction 1 as [|x l _ IH Hall]; constructor; [done|].
  eapply Forall_impl; [exact Hall|]. apply Himp.
Qed.

Lemma ranked_sublist (found : list string) (min_score top : Z) :
  ranked found min_score top `sublist_of` merge_sort rank_le found.
Proof.
  unfold ranked.
  assert ((if 0 <? min_score
           then filter (λ w, min_score ≤ wordhunt_score w)
                  (merge_sort rank_le found)
           else merge_sort rank_le found)
          `sublist_of` merge_sort rank_le found) as Hfilter.
  { destruct (0 <? min_score); [apply sublist_filter|done]. }
  destruct (0 <? top); [|done]. etrans; [apply sublist_take|done].
Qed.

(** X27: the list the program prints does not depend on the order in which
    the set of found words is iterated. *)
Theorem ranked_order_independent (found found' : list string)
    (min_score top : Z) :
  found ≡ₚ found' → ranked found min_score top = ranked found' min_score top.
Proof.
  intros Hperm. unfold ranked.
  assert (merge_sort rank_le found = merge_sort rank_le found') as ->; [|done].
  pose proof rank_le_total. pose proof rank_le_trans.
  pose proof rank_le_antisymm.
  apply (Sorted_unique rank_le).
  - by apply Sorted_merge_sort.
  - by apply Sorted_merge_sort.
  - by rewrite !merge_sort_Permutation.
Qed.

Lemma ranked_order_independent_witness :
  ["at"; "cats"; "ca"; "cat"] ≡ₚ ["cat"; "ca"; "cats"; "at"]
  ∧ ranked ["at"; "cats"; "ca"; "cat"] 1 2
    = ranked ["cat"; "ca"; "cats"; "at"] 1 2.
Proof.
  assert (["at"; "cats"; "ca"; "cat"] ≡ₚ ["cat"; "ca"; "cats"; "at"]) as Hperm.
  { apply (bool_decide_unpack _). vm_compute. exact I. }
  split; [exact Hperm|].
  exact (ranked_order_independent _ _ 1 2 Hperm).
Defined.

(** X28: the list the program prints holds found words only, each at most
    as often as it was found, in order of decreasing score; with a positive
    [--min-score] every word of it scores at least that, and with a positive
    [--top] it has at most that many words. *)
Theorem ranked_spec (found : list string) (min_score top : Z) :
  StronglySorted (λ w1 w2, wordhunt_score w2 ≤ wordhunt_score w1)
                 (ranked found min_score top)
  ∧ (∀ w, w ∈ ranked found min_score top → w ∈ found)
  ∧ (NoDup found → NoDup (ranked found min_score top))
  ∧ (0 < min_score →
     Forall (λ w, min_score ≤ wordhunt_score w) (ranked found min_score top))
  ∧ (0 < top → Z.of_nat (length (ranked found min_score top)) ≤ top).
Proof.
  pose proof (ranked_sublist found min_score top) as Hsub.
  pose proof rank_le_total. pose proof rank_le_trans.
  split_and!.
  - eapply StronglySorted_sublist; [exact Hsub|].
    eapply StronglySorted_weaken; [apply rank_le_score|].
    by apply StronglySorted_merge_sort.
  - intros w Hw. rewrite <- (merge_sort_Permutation rank_le found).
    by eapply elem_of_sublist.
  - intros Hnd. eapply sublist_NoDup; [|exact Hsub].
    by rewrite merge_sort_Permutation.
  - intros Hms. unfold ranked.
    destruct (Z.ltb_spec 0 min_score); [|lia].
    assert (Forall (λ w, min_score ≤ wordhunt_score w)
              (filter (λ w, min_score ≤ wordhunt_score w)
                 (merge_sort rank_le found))) as Hall.
    { apply Forall_forall. by intros w [? _]%list_elem_of_filter. }
    destruct (0 <? top); [|done]. by apply Forall_take.
  - intros Htop. unfold ranked. destruct (Z.ltb_spec 0 top); [|lia].
    rewrite length_take. lia.
Qed.
